(** * Tile-swap puzzle: the shuffle engine and the session state machine

    A shallow embedding of the client script of the puzzle game (the
    immediately-invoked function holding [state], [shuffleTiles],
    [handleTileClick], [loadLevel], ...) together with the properties of
    its shuffle, its solved check and its event handlers. *)

From stdpp Require Import base option list strings.
From Stdlib Require Import Permutation Lia Sorted.

Open Scope string_scope.
Open Scope nat_scope.
Open Scope list_scope.

(** ** Data *)

(** What [drawImage] copied onto a tile's canvas: the cell ([cv_row],
    [cv_col]) of the image [cv_image] cut into a [cv_grid] x [cv_grid] grid. *)
Record Canvas := mkCanvas {
  cv_image : string;
  cv_grid : nat;
  cv_row : nat;
  cv_col : nat
}.

(** A tile as [createTiles] pushes it: [{ originalIndex, canvas }]. *)
Record Tile := mkTile {
  originalIndex : nat;
  canvas : Canvas
}.

(** The [Image] element that [loadImage] resolves to. *)
Record Image := mkImage {
  img_src : string
}.

(** The JSON object served for one level: [{ level, image, audio }]. *)
Record LevelData := mkLevelData {
  level : string;
  image : string;
  audio : string
}.

(** ** Arrays and loops

    The board is a dense JavaScript array of tiles, here a [list Tile] read
    with [!!]. An index outside the array makes the operation return [None]:
    JavaScript would read [undefined] there, and an assignment would grow the
    array and leave holes, after which the array no longer is a board. The
    theorems below show that the program never uses such an index. *)

(** [[a[i], a[j]] = [a[j], a[i]]]: both reads come first, then both writes. *)
Definition swapAt (i j : nat) (a : list Tile) : option (list Tile) :=
  aj ← a !! j;
  ai ← a !! i;
  Some (<[j := ai]> (<[i := aj]> a)).

(** A [for] loop whose counter takes the values of [indices] in turn and
    whose body updates the loop-carried value or stops at a bad index. *)
Fixpoint forLoop {A : Type} (indices : list nat) (body : nat → A → option A)
    (acc : A) : option A :=
  match indices with
  | [] => Some acc
  | k :: rest => acc' ← body k acc; forLoop rest body acc'
  end.

(** [array.every((x, index) => p x index)] on a dense array. *)
Fixpoint everyFrom {A : Type} (p : A → nat → bool) (index : nat) (l : list A)
    : bool :=
  match l with
  | [] => true
  | x :: rest => if p x index then everyFrom p (S index) rest else false
  end.

Definition every {A : Type} (p : A → nat → bool) (l : list A) : bool :=
  everyFrom p 0 l.

(** ** Grid size *)

Definition baseSize : nat := 3.
Definition maxSize : nat := 6.

(** [calculateGridSize(levelIndex)]. *)
Definition calculateGridSize (levelIndex : nat) : nat :=
  Nat.min (baseSize + levelIndex) maxSize.

(** ** Shuffle engine *)

(** The first loop of [shuffleTiles]: [for (i = n - 1; i > 0; i--)], with
    [pick i] standing for [Math.floor(Math.random() * (i + 1))] at counter
    value [i]. Each counter value occurs once, so a function of [i] describes
    any sequence of draws. *)
Definition fisherYates (pick : nat → nat) (n : nat) (shuffled : list Tile)
    : option (list Tile) :=
  forLoop (rev (seq 1 (n - 1)))
          (fun i shuffled => let j := pick i in swapAt i j shuffled)
          shuffled.

(** The draws [Math.random] can produce: it returns a number in [0, 1), so
    the floor of its product with [i + 1] is at most [i]. *)
Definition picksInRange (pick : nat → nat) (n : nat) : bool :=
  forallb (fun i => pick i <=? i) (seq 0 n).

(** The second, nested loop of [shuffleTiles]. *)
Definition countInversions (n : nat) (shuffled : list Tile) : option nat :=
  forLoop (seq 0 n)
          (fun i inversions =>
             forLoop (seq (i + 1) (n - (i + 1)))
                     (fun j inversions =>
                        si ← shuffled !! i;
                        sj ← shuffled !! j;
                        Some (if originalIndex sj <? originalIndex si
                              then S inversions else inversions))
                     inversions)
          0.

(** [shuffleTiles(tiles)]. *)
Definition shuffleTiles (pick : nat → nat) (tiles : list Tile)
    : option (list Tile) :=
  let n := length tiles in
  let shuffled := tiles in
  shuffled ← fisherYates pick n shuffled;
  inversions ← countInversions n shuffled;
  if negb (inversions mod 2 =? 0)
  then swapAt 0 1 shuffled
  else Some shuffled.

(** The callback of [checkSolved]: [tile.originalIndex === index]. *)
Definition inPlace (tile : Tile) (index : nat) : bool :=
  originalIndex tile =? index.

(** [createTiles(image, gridSize)]: row by row, column by column. *)
Definition createTiles (image : Image) (gridSize : nat) : list Tile :=
  flat_map
    (fun row =>
       map (fun col =>
              let index := row * gridSize + col in
              {| originalIndex := index;
                 canvas := mkCanvas (img_src image) gridSize row col |})
           (seq 0 gridSize))
    (seq 0 gridSize).

(** ** The session: game state, page and event loop *)

(** The [audio] element made by [createAndPlayAudio]. [audio_id] tells one
    element from another: the [canplaythrough] listener keeps the element it
    was added to, which [state.audioElement] may have dropped by then.
    [audio_paused] is the element's [paused] attribute: [pause()] sets it,
    and [play()] clears it when the browser accepts the call. *)
Record Audio := mkAudio {
  audio_id : nat;
  audio_src : string;
  audio_preload : string;
  audio_paused : bool
}.

(** The object [state] of the script, field by field. *)
Record Game := mkGame {
  levels : list string;
  currentLevelIndex : nat;
  currentLevel : option LevelData;
  gridSize : nat;
  tiles : list Tile;
  selectedTile : option nat;
  isSolved : bool;
  originalImage : option Image;
  audioElement : option Audio
}.

Definition set_levels (v : list string) (g : Game) : Game :=
  mkGame v (currentLevelIndex g) (currentLevel g) (gridSize g) (tiles g)
         (selectedTile g) (isSolved g) (originalImage g) (audioElement g).
Definition set_currentLevelIndex (v : nat) (g : Game) : Game :=
  mkGame (levels g) v (currentLevel g) (gridSize g) (tiles g)
         (selectedTile g) (isSolved g) (originalImage g) (audioElement g).
Definition set_currentLevel (v : option LevelData) (g : Game) : Game :=
  mkGame (levels g) (currentLevelIndex g) v (gridSize g) (tiles g)
         (selectedTile g) (isSolved g) (originalImage g) (audioElement g).
Definition set_gridSize (v : nat) (g : Game) : Game :=
  mkGame (levels g) (currentLevelIndex g) (currentLevel g) v (tiles g)
         (selectedTile g) (isSolved g) (originalImage g) (audioElement g).
Definition set_tiles (v : list Tile) (g : Game) : Game :=
  mkGame (levels g) (currentLevelIndex g) (currentLevel g) (gridSize g) v
         (selectedTile g) (isSolved g) (originalImage g) (audioElement g).
Definition set_selectedTile (v : option nat) (g : Game) : Game :=
  mkGame (levels g) (currentLevelIndex g) (currentLevel g) (gridSize g)
         (tiles g) v (isSolved g) (originalImage g) (audioElement g).
Definition set_isSolved (v : bool) (g : Game) : Game :=
  mkGame (levels g) (currentLevelIndex g) (currentLevel g) (gridSize g)
         (tiles g) (selectedTile g) v (originalImage g) (audioElement g).
Definition set_originalImage (v : option Image) (g : Game) : Game :=
  mkGame (levels g) (currentLevelIndex g) (currentLevel g) (gridSize g)
         (tiles g) (selectedTile g) (isSolved g) v (audioElement g).
Definition set_audioElement (v : option Audio) (g : Game) : Game :=
  mkGame (levels g) (currentLevelIndex g) (currentLevel g) (gridSize g)
         (tiles g) (selectedTile g) (isSolved g) (originalImage g) v.

(** The six screens of [showScreen]; exactly one lacks the class [hidden]. *)
Inductive Screen :=
| LoadingScreen | ErrorScreen | WelcomeScreen
| GameScreen | CompletionScreen | FinalScreen.

Global Instance Screen_eq_dec : EqDecision Screen.
Proof. solve_decision. Defined.

(** A [.puzzle-tile] element of the puzzle container: the canvas cloned into
    it and the classes the script toggles on it. Its position in the
    container is its [dataset.index]. *)
Record TileElement := mkTileElement {
  te_canvas : Canvas;
  te_correct : bool;
  te_selected : bool;
  te_swapping : bool
}.

(** The part of the page the handlers act on: the visible screen, the text
    of [errorMessage] and of [hintText], the children of [puzzleContainer]
    and its class [locked]. The progress text, the label of the Next button
    and the completed image are written and never read back; they are left
    out. *)
Record Page := mkPage {
  screen : Screen;
  errorMessage : string;
  hintText : string;
  puzzleTiles : list TileElement;
  locked : bool
}.

Definition set_screen (v : Screen) (p : Page) : Page :=
  mkPage v (errorMessage p) (hintText p) (puzzleTiles p) (locked p).
Definition set_errorMessage (v : string) (p : Page) : Page :=
  mkPage (screen p) v (hintText p) (puzzleTiles p) (locked p).
Definition set_hintText (v : string) (p : Page) : Page :=
  mkPage (screen p) (errorMessage p) v (puzzleTiles p) (locked p).
Definition set_puzzleTiles (v : list TileElement) (p : Page) : Page :=
  mkPage (screen p) (errorMessage p) (hintText p) v (locked p).
Definition set_locked (v : bool) (p : Page) : Page :=
  mkPage (screen p) (errorMessage p) (hintText p) (puzzleTiles p) v.

(** What the event loop still owes the script: a promise an [async]
    function awaits, a timer, or a listener added with [once]. The
    arguments are the variables the continuation closes over. *)
Inductive Task :=
| AwaitLevels
    (* init, at [await fetchLevels()] *)
| AwaitLevelData (levelIndex : nat) (levelName : option string)
    (* loadLevel, at [await fetchLevelData(levelName)] *)
| AwaitImage (levelIndex : nat) (levelData : LevelData)
    (* loadLevel, at [await loadImage(imageUrl)] *)
| RenderTimer
    (* swapTiles: [setTimeout(() => renderPuzzle(), 150)] *)
| CompletionTimer
    (* handlePuzzleSolved: [setTimeout(() => showCompletionScreen(), 500)] *)
| CanPlayThrough (audioId : nat).
    (* createAndPlayAudio: the listener that calls [audio.play()] *)

(** The session: the script's [state], the page, the pending tasks, and two
    history counters that the script does not have: [audioCreated] counts
    the calls of [document.createElement('audio')] (each followed by the
    one [audio.load()]), [puzzlesSolved] the calls of [handlePuzzleSolved]. *)
Record World := mkWorld {
  state : Game;
  page : Page;
  pending : list Task;
  audioCreated : nat;
  puzzlesSolved : nat
}.

(** The script as loaded, after the [DOMContentLoaded] listener ran
    [setupEventListeners()] and [init()] up to its first [await]: the state
    literal, the loading screen, and the level list being fetched. The
    texts the markup starts with are not known here and taken empty. *)
Definition initialGame : Game :=
  {| levels := [];
     currentLevelIndex := 0;
     currentLevel := None;
     gridSize := 3;
     tiles := [];
     selectedTile := None;
     isSolved := false;
     originalImage := None;
     audioElement := None |}.

Definition initialWorld : World :=
  {| state := initialGame;
     page := mkPage LoadingScreen "" "" [] false;
     pending := [AwaitLevels];
     audioCreated := 0;
     puzzlesSolved := 0 |}.

(** ** Handlers as state transformers

    A handler runs to completion on the session and may stop at a fault
    ([None]): an index outside the board (see above) or a property read on
    [null] or [undefined], where JavaScript throws a [TypeError]. *)
Definition M (A : Type) : Type := World → option (A * World).

Definition ret {A : Type} (a : A) : M A := fun w => Some (a, w).
Definition fault {A : Type} : M A := fun _ => None.
Definition bind {A B : Type} (m : M A) (k : A → M B) : M B :=
  fun w => match m w with
           | Some (a, w') => k a w'
           | None => None
           end.

Notation "x <- m ;; k" := (bind m (fun x => k))
  (at level 100, m at next level, right associativity).
Notation "m ;; k" := (bind m (fun _ => k))
  (at level 100, right associativity).

Definition getState : M Game := fun w => Some (state w, w).
Definition getPage : M Page := fun w => Some (page w, w).
Definition modifyState (f : Game → Game) : M unit :=
  fun w => Some (tt, mkWorld (f (state w)) (page w) (pending w)
                             (audioCreated w) (puzzlesSolved w)).
Definition modifyPage (f : Page → Page) : M unit :=
  fun w => Some (tt, mkWorld (state w) (f (page w)) (pending w)
                             (audioCreated w) (puzzlesSolved w)).
(** A new promise, timer or listener goes to the end of the pending list. *)
Definition addTask (t : Task) : M unit :=
  fun w => Some (tt, mkWorld (state w) (page w) (pending w ++ [t])
                             (audioCreated w) (puzzlesSolved w)).
(** [document.createElement('audio')]: counted, and the count before the
    call names the new element. *)
Definition createAudioElement : M nat :=
  fun w => Some (audioCreated w,
                 mkWorld (state w) (page w) (pending w)
                         (S (audioCreated w)) (puzzlesSolved w)).
(** The history step of [handlePuzzleSolved]. *)
Definition countSolved : M unit :=
  fun w => Some (tt, mkWorld (state w) (page w) (pending w)
                             (audioCreated w) (S (puzzlesSolved w))).
(** A value that the code goes on to read a property of, or an array swap
    that must stay inside the board: a fault when it is missing. *)
Definition required {A : Type} (o : option A) : M A :=
  match o with
  | Some a => ret a
  | None => fault
  end.

(** ** Utility functions *)

(** [showScreen(screenElement)]: the given screen loses [hidden], all
    others get it. *)
Definition showScreen (screenElement : Screen) : M unit :=
  modifyPage (set_screen screenElement).

(** [showError(message)]. *)
Definition showError (message : string) : M unit :=
  modifyPage (set_errorMessage message) ;;
  showScreen ErrorScreen.

Definition setHint (text : string) : M unit :=
  modifyPage (set_hintText text).

(** [tiles[index].classList.add/remove(...)] on the list returned by
    [querySelectorAll('.puzzle-tile')]. *)
Definition updateTileElement (index : nat) (f : TileElement → TileElement)
    : M unit :=
  p <- getPage ;;
  element <- required (puzzleTiles p !! index) ;;
  modifyPage (set_puzzleTiles (<[index := f element]> (puzzleTiles p))).

Definition setSelected (v : bool) (e : TileElement) : TileElement :=
  mkTileElement (te_canvas e) (te_correct e) v (te_swapping e).
Definition addSwapping (e : TileElement) : TileElement :=
  mkTileElement (te_canvas e) (te_correct e) (te_selected e) true.

(** ** Puzzle functions *)

(** The solved check on a board, and [checkSolved()] reading [state.tiles]. *)
Definition boardSolved (board : list Tile) : bool :=
  every inPlace board.

Definition checkSolved : M bool :=
  g <- getState ;;
  ret (boardSolved (tiles g)).

(** [renderPuzzle()]: the container is emptied and refilled with one fresh
    element per tile; the listeners added here call [handleTileClick] with
    the element's position. *)
Definition renderPuzzle : M unit :=
  g <- getState ;;
  modifyPage (set_puzzleTiles
    (imap (fun currentIndex tile =>
             {| te_canvas := canvas tile;
                te_correct := originalIndex tile =? currentIndex;
                te_selected := false;
                te_swapping := false |})
          (tiles g))) ;;
  modifyPage (set_locked false).

(** [swapTiles(indexA, indexB)]. *)
Definition swapTiles (indexA indexB : nat) : M unit :=
  g <- getState ;;
  swapped <- required (swapAt indexA indexB (tiles g)) ;;
  modifyState (set_tiles swapped) ;;
  updateTileElement indexA addSwapping ;;
  updateTileElement indexB addSwapping ;;
  addTask RenderTimer.

(** [handlePuzzleSolved()]. *)
Definition handlePuzzleSolved : M unit :=
  modifyState (set_isSolved true) ;;
  countSolved ;;
  modifyPage (set_locked true) ;;
  setHint "Puzzle complete!" ;;
  addTask CompletionTimer.

(** [handleTileClick(index)]. *)
Definition handleTileClick (index : nat) : M unit :=
  g <- getState ;;
  if isSolved g then ret tt
  else
    match selectedTile g with
    | None =>
        modifyState (set_selectedTile (Some index)) ;;
        updateTileElement index (setSelected true) ;;
        setHint "Now tap another tile to swap"
    | Some selected =>
        if decide (selected = index) then
          modifyState (set_selectedTile None) ;;
          updateTileElement index (setSelected false) ;;
          setHint "Tap two tiles to swap them"
        else
          swapTiles selected index ;;
          updateTileElement selected (setSelected false) ;;
          modifyState (set_selectedTile None) ;;
          setHint "Tap two tiles to swap them" ;;
          solved <- checkSolved ;;
          if solved then handlePuzzleSolved else ret tt
    end.

(** [createAndPlayAudio()]. The old element, if any, is paused, emptied and
    dropped; the new one is created, given its source, stored, given its
    listener and told to load. *)
Definition createAndPlayAudio : M unit :=
  g <- getState ;;
  match audioElement g with
  | Some _ => modifyState (set_audioElement None)
  | None => ret tt
  end ;;
  id <- createAudioElement ;;
  levelData <- required (currentLevel g) ;;
  let audioUrl := "/levels/" +:+ level levelData +:+ "/"
                  +:+ audio levelData in
  modifyState (set_audioElement (Some (mkAudio id audioUrl "auto" true))) ;;
  addTask (CanPlayThrough id).

(** [showCompletionScreen()]. *)
Definition showCompletionScreen : M unit :=
  g <- getState ;;
  _ <- required (originalImage g) ;;
  showScreen CompletionScreen ;;
  createAndPlayAudio.

(** ** API functions *)

(** How a [fetch] followed by [response.json()] ends: either promise is
    rejected with an error carrying a message, the response is not [ok], or
    the body parses to [data]. *)
Inductive FetchReply (A : Type) :=
| Rejected (message : string)
| NotOk
| Json (data : A).
Arguments Rejected {A} message.
Arguments NotOk {A}.
Arguments Json {A} data.

(** [fetchLevels()] after its [fetch]: the thrown message or the level
    list. [data] is the [levels] property of the body, if it has one. *)
Definition fetchLevels (reply : FetchReply (option (list string)))
    : string + list string :=
  match reply with
  | Rejected message => inl message
  | NotOk => inl "Failed to load levels"
  | Json data =>
      match data with
      | None =>
          inl "No levels found. Please add levels to the /levels folder."
      | Some levels =>
          if length levels =? 0
          then inl "No levels found. Please add levels to the /levels folder."
          else inr levels
      end
  end.

(** [fetchLevelData(levelName)] after its [fetch]. *)
Definition fetchLevelData (levelName : option string)
    (reply : FetchReply LevelData) : string + LevelData :=
  match reply with
  | Rejected message => inl message
  | NotOk => inl ("Failed to load level: " +:+ default "undefined" levelName)
  | Json data => inr data
  end.

(** [loadImage(url)] settles with the image or with
    [Error('Failed to load image')]. *)
Definition loadImage (reply : option Image) : string + Image :=
  match reply with
  | Some img => inr img
  | None => inl "Failed to load image"
  end.

(** ** Level management *)

(** [loadLevel(levelIndex)] up to [await fetchLevelData(levelName)]. *)
Definition loadLevel (levelIndex : nat) : M unit :=
  showScreen LoadingScreen ;;
  g <- getState ;;
  let levelName := levels g !! levelIndex in
  addTask (AwaitLevelData levelIndex levelName).

(** The [catch] block of [loadLevel]. *)
Definition loadLevel_catch (message : string) : M unit :=
  showError ("Failed to load level: " +:+ message).

(** [loadLevel] from the first [await] to [await loadImage(imageUrl)]. *)
Definition loadLevel_afterLevelData (levelIndex : nat)
    (levelName : option string) (reply : FetchReply LevelData) : M unit :=
  match fetchLevelData levelName reply with
  | inl message => loadLevel_catch message
  | inr levelData =>
      modifyState (set_currentLevel (Some levelData)) ;;
      modifyState (set_currentLevelIndex levelIndex) ;;
      modifyState (set_gridSize (calculateGridSize levelIndex)) ;;
      addTask (AwaitImage levelIndex levelData)
  end.

(** [loadLevel] from the second [await] to its end. *)
Definition loadLevel_afterImage (pick : nat → nat) (reply : option Image)
    : M unit :=
  match loadImage reply with
  | inl message => loadLevel_catch message
  | inr img =>
      modifyState (set_originalImage (Some img)) ;;
      g <- getState ;;
      let tiles := createTiles img (gridSize g) in
      shuffled <- required (shuffleTiles pick tiles) ;;
      modifyState (set_tiles shuffled) ;;
      modifyState (set_selectedTile None) ;;
      modifyState (set_isSolved false) ;;
      match audioElement g with
      | Some _ => modifyState (set_audioElement None)
      | None => ret tt
      end ;;
      renderPuzzle ;;
      showScreen GameScreen ;;
      setHint "Tap two tiles to swap them"
  end.

(** [nextLevel()]. *)
Definition nextLevel : M unit :=
  g <- getState ;;
  if length (levels g) - 1 <=? currentLevelIndex g
  then showScreen FinalScreen
  else loadLevel (currentLevelIndex g + 1).

(** [restart()]. *)
Definition restart : M unit :=
  modifyState (set_currentLevelIndex 0) ;;
  loadLevel 0.

(** ** Initialization *)

(** [init()] up to [await fetchLevels()], and from there to its end. *)
Definition init : M unit :=
  showScreen LoadingScreen ;;
  addTask AwaitLevels.

Definition init_afterLevels (reply : FetchReply (option (list string)))
    : M unit :=
  match fetchLevels reply with
  | inl message =>
      showError (if decide (message = "") then "Failed to initialize game"
                 else message)
  | inr levels =>
      modifyState (set_levels levels) ;;
      showScreen WelcomeScreen
  end.

Inductive Button := StartBtn | RetryBtn | ReplayBtn | NextBtn | RestartBtn.

Definition setPaused (v : bool) (a : Audio) : Audio :=
  mkAudio (audio_id a) (audio_src a) (audio_preload a) v.

(** The click listeners of [setupEventListeners()]. [playAllowed] is the
    browser's answer to the [audio.play()] of the Replay listener: when it
    refuses, the promise is rejected, the [catch] logs it and the element
    stays as it is. *)
Definition onClick (b : Button) (playAllowed : bool) : M unit :=
  match b with
  | StartBtn => loadLevel 0
  | RetryBtn => init
  | ReplayBtn =>
      g <- getState ;;
      match audioElement g with
      | Some a =>
          if playAllowed
          then modifyState (set_audioElement (Some (setPaused false a)))
          else ret tt
      | None => ret tt
      end
  | NextBtn =>
      g <- getState ;;
      match audioElement g with
      | Some a => modifyState (set_audioElement (Some (setPaused true a)))
      | None => ret tt
      end ;;
      nextLevel
  | RestartBtn => restart
  end.

(** The [canplaythrough] listener: [audio.play()] on the element it was
    added to, which shows in [state] only while that element is still the
    current one. [playAllowed] is the browser's answer: when it refuses
    (auto-play prevented), the promise is rejected, the [catch] logs it and
    the element stays paused. *)
Definition onCanPlayThrough (audioId : nat) (playAllowed : bool) : M unit :=
  g <- getState ;;
  match audioElement g with
  | Some a =>
      if decide (audio_id a = audioId)
      then
        if playAllowed
        then modifyState (set_audioElement (Some (setPaused false a)))
        else ret tt
      else ret tt
  | None => ret tt
  end.

(** ** The event loop *)

(** What can happen next: the user presses a button or activates a tile
    (click, Enter or Space on the tile element at position [index]), or the
    [k]-th pending task is resumed with what the environment supplies: the
    outcome of a fetch or image load (with the draws of [Math.random] that
    the shuffle will make), a timer expiry, an audio event. A click and a
    [canplaythrough] event come with the browser's answer to the
    [audio.play()] their listener may call. *)
Inductive Event :=
| ClickWith (b : Button) (playAllowed : bool)
| TileActivated (index : nat)
| LevelsFetched (k : nat) (reply : FetchReply (option (list string)))
| LevelDataFetched (k : nat) (reply : FetchReply LevelData)
| ImageSettled (k : nat) (reply : option Image) (pick : nat → nat)
| TimerFired (k : nat)
| CanPlayThroughFired (k : nat) (playAllowed : bool).

(** A click at a moment when the browser accepts [audio.play()]. *)
Definition Click (b : Button) : Event := ClickWith b true.

(** The [k]-th pending task leaves the list when it is resumed. *)
Definition takeTask (k : nat) : M Task :=
  fun w =>
    match pending w !! k with
    | Some t => Some (t, mkWorld (state w) (page w) (delete k (pending w))
                                 (audioCreated w) (puzzlesSolved w))
    | None => None
    end.

Definition resume (t : Task) (e : Event) : M unit :=
  match t, e with
  | AwaitLevels, LevelsFetched _ reply => init_afterLevels reply
  | AwaitLevelData levelIndex levelName, LevelDataFetched _ reply =>
      loadLevel_afterLevelData levelIndex levelName reply
  | AwaitImage _ _, ImageSettled _ reply pick =>
      loadLevel_afterImage pick reply
  | RenderTimer, TimerFired _ => renderPuzzle
  | CompletionTimer, TimerFired _ => showCompletionScreen
  | CanPlayThrough audioId, CanPlayThroughFired _ playAllowed =>
      onCanPlayThrough audioId playAllowed
  | _, _ => fault
  end.

Definition handle (e : Event) : M unit :=
  match e with
  | ClickWith b playAllowed => onClick b playAllowed
  | TileActivated index => handleTileClick index
  | LevelsFetched k _ | LevelDataFetched k _ | ImageSettled k _ _
  | TimerFired k | CanPlayThroughFired k _ =>
      t <- takeTask k ;;
      resume t e
  end.

Section EventLoop.

(** The layout of the page: [buttonShown b sc] tells whether the button [b]
    can be pressed while [sc] is the visible screen. The markup that fixes
    it is not among the sources, so the event loop takes it as given. *)
Variable buttonShown : Button → Screen → bool.

(** An event can occur when its button can be pressed on the visible
    screen, when the tile element at its position exists, or when the task
    it resumes is pending and of its kind; when the image has loaded, the
    draws are those [Math.random] can produce for the board about to be
    shuffled. Tile elements are not tied to a screen here: they may be
    activated whichever screen is shown. *)
Definition enabled (e : Event) (w : World) : bool :=
  match e with
  | ClickWith b _ => buttonShown b (screen (page w))
  | TileActivated index => index <? length (puzzleTiles (page w))
  | LevelsFetched k _ =>
      match pending w !! k with Some AwaitLevels => true | _ => false end
  | LevelDataFetched k _ =>
      match pending w !! k with
      | Some (AwaitLevelData _ _) => true
      | _ => false
      end
  | ImageSettled k reply pick =>
      match pending w !! k, reply with
      | Some (AwaitImage _ _), Some _ =>
          picksInRange pick (gridSize (state w) * gridSize (state w))
      | Some (AwaitImage _ _), None => true
      | _, _ => false
      end
  | TimerFired k =>
      match pending w !! k with
      | Some RenderTimer | Some CompletionTimer => true
      | _ => false
      end
  | CanPlayThroughFired k _ =>
      match pending w !! k with Some (CanPlayThrough _) => true | _ => false end
  end.

(** One turn of the event loop; [None] when the event cannot occur or the
    handler stops at a fault. *)
Definition step (w : World) (e : Event) : option World :=
  if enabled e w then snd <$> handle e w else None.

Fixpoint run (events : list Event) (w : World) : option World :=
  match events with
  | [] => Some w
  | e :: rest => w' ← step w e; run rest w'
  end.

(** The sessions the script can be in between two events. *)
Inductive reachable : World → Prop :=
| reachable_initial : reachable initialWorld
| reachable_step w e w' :
    reachable w → step w e = Some w' → reachable w'.

End EventLoop.

(** The buttons whose listeners call [init], [loadLevel] or [nextLevel],
    that is, all but Replay. *)
Definition loadButtons : list Button :=
  [StartBtn; RetryBtn; NextBtn; RestartBtn].

(** A layout keeps these buttons away from the game screen and from the
    loading screen. *)
Definition loadButtonsHidden (buttonShown : Button → Screen → bool) : bool :=
  forallb (fun b => negb (buttonShown b GameScreen)
                    && negb (buttonShown b LoadingScreen))
          loadButtons.

(** The layout that the ids and the order of the entries of [elements]
    suggest: every button sits in the screen listed before it, and is shown
    with that screen only. *)
Definition buttonScreen (b : Button) : Screen :=
  match b with
  | StartBtn => WelcomeScreen
  | RetryBtn => ErrorScreen
  | ReplayBtn | NextBtn => CompletionScreen
  | RestartBtn => FinalScreen
  end.

Definition pageLayout (b : Button) (sc : Screen) : bool :=
  bool_decide (sc = buttonScreen b).


(** ** Notions used to state the properties *)

(** The origin ordinals of a board, position by position. *)
Definition ordinals (board : list Tile) : list nat :=
  map originalIndex board.

(** The number of inversions of a sequence: for every element, the later
    elements that are smaller, i.e. the pairs of positions [i < j] whose
    values stand in the order [l_i > l_j]. *)
Fixpoint inversionsOf (l : list nat) : nat :=
  match l with
  | [] => 0
  | x :: rest => length (filter (fun y => y < x) rest) + inversionsOf rest
  end.

(** A sequence of swap requests, each served by [swapTiles]. *)
Fixpoint swapMany (swaps : list (nat * nat)) : M unit :=
  match swaps with
  | [] => ret tt
  | (indexA, indexB) :: rest => swapTiles indexA indexB ;; swapMany rest
  end.

(** A session holding a given board, rendered. *)
Definition worldWithBoard (board : list Tile) : World :=
  match renderPuzzle (mkWorld (set_tiles board initialGame)
                              (mkPage GameScreen "" "" [] false) [] 0 0) with
  | Some (_, w) => w
  | None => initialWorld
  end.

(** ** The invariant of the session *)

Definition isAsync (t : Task) : bool :=
  match t with
  | AwaitLevels | AwaitLevelData _ _ | AwaitImage _ _ => true
  | _ => false
  end.

Definition isAwaitImage (t : Task) : bool :=
  match t with AwaitImage _ _ => true | _ => false end.

Definition isCompletionTimer (t : Task) : bool :=
  match t with CompletionTimer => true | _ => false end.

Fixpoint countIf (p : Task → bool) (l : list Task) : nat :=
  match l with
  | [] => 0
  | t :: rest => (if p t then 1 else 0) + countIf p rest
  end.

(** What holds between any two events:
    - no audio element while the puzzle is unsolved;
    - the page shows one element per tile, and a selected position is on
      the board;
    - a pending completion timer means the game screen of a solved puzzle,
      and there is at most one;
    - an unfinished [init] or [loadLevel] means the loading screen, and
      there is at most one;
    - the game screen is shown only after a load that stored the image and
      the level data, and the level data is stored before the image is
      awaited;
    - every solved puzzle has had its audio element created or still has
      its completion timer pending;
    - an unsolved puzzle with tiles on the page means the game screen. *)
Record Inv (w : World) : Prop := mkInv {
  inv_audio : isSolved (state w) = false → audioElement (state w) = None;
  inv_page : length (puzzleTiles (page w)) = length (tiles (state w));
  inv_selected :
    ∀ p, selectedTile (state w) = Some p → p < length (tiles (state w));
  inv_timer :
    0 < countIf isCompletionTimer (pending w) →
    screen (page w) = GameScreen ∧ isSolved (state w) = true;
  inv_timer_one : countIf isCompletionTimer (pending w) ≤ 1;
  inv_async :
    0 < countIf isAsync (pending w) → screen (page w) = LoadingScreen;
  inv_async_one : countIf isAsync (pending w) ≤ 1;
  inv_game :
    screen (page w) = GameScreen → is_Some (originalImage (state w));
  inv_level :
    screen (page w) = GameScreen ∨ 0 < countIf isAwaitImage (pending w) →
    is_Some (currentLevel (state w));
  inv_created :
    audioCreated w + countIf isCompletionTimer (pending w) = puzzlesSolved w;
  inv_unsolved :
    isSolved (state w) = false →
    length (puzzleTiles (page w)) = 0 ∨ screen (page w) = GameScreen
}.

(** What holds whatever the layout of the page: one element per tile, the
    selection on the board, and the board a permutation of the origin
    ordinals. *)
Record InvBoard (w : World) : Prop := mkInvBoard {
  invb_page : length (puzzleTiles (page w)) = length (tiles (state w));
  invb_selected :
    ∀ p, selectedTile (state w) = Some p → p < length (tiles (state w));
  invb_ordinals :
    ordinals (tiles (state w)) ≡ₚ seq 0 (length (tiles (state w)))
}.


(** ** Sample data for the scenarios *)

Definition sampleLevel : LevelData :=
  mkLevelData "level_1" "photo.jpg" "message.mp3".

Definition secondLevel : LevelData :=
  mkLevelData "level_2" "vacation.png" "memory.mp3".

Definition sampleImage : Image := mkImage "/levels/level_1/photo.jpg".

(** Draws given as a table: [draws] at position [i] is the draw made at
    loop counter [i]. *)
Definition picksOf (draws : list nat) : nat → nat :=
  fun i => nth i draws 0.

(** The draws that leave every tile where it is: [j = i] each time. *)
Definition identityPicks : nat → nat := fun i => i.

(** A 2 x 2 board in solved order. *)
Definition board2x2 : list Tile := createTiles sampleImage 2.

(** A session from start-up to the first level on screen, with a 3 x 3
    board left in solved order by the draws. *)
Definition startFirstLevel : list Event :=
  [ LevelsFetched 0 (Json (Some ["level_1"; "level_2"]));
    Click StartBtn;
    LevelDataFetched 0 (Json sampleLevel);
    ImageSettled 0 (Some sampleImage) identityPicks ].

(** The player exchanges tiles 0 and 1 and exchanges them back, which
    solves the puzzle; the two render timers expire. *)
Definition solveFirstLevel : list Event :=
  startFirstLevel
  ++ [ TileActivated 0; TileActivated 1; TileActivated 1; TileActivated 0;
       TimerFired 0; TimerFired 0 ].

(** The session after the given events, from start-up, on [pageLayout]. *)
Definition worldAfter (events : list Event) : World :=
  default initialWorld (run pageLayout events initialWorld).

(** ** Further notions about the session *)

Definition isRenderTimer (t : Task) : bool :=
  match t with RenderTimer => true | _ => false end.

Definition isLevelDataTask (t : Task) : bool :=
  match t with AwaitLevelData _ _ => true | _ => false end.

(** What [renderPuzzle] puts on the page for a board: per position the
    canvas of the tile and whether the tile is marked [correct]. *)
Definition shownBoard (board : list Tile) : list (Canvas * bool) :=
  imap (fun currentIndex tile =>
          (canvas tile, originalIndex tile =? currentIndex)) board.

(** What the page shows: canvas and [correct] mark of every tile element. *)
Definition shownOnPage (p : Page) : list (Canvas * bool) :=
  map (fun element => (te_canvas element, te_correct element)) (puzzleTiles p).

(** A layout keeps the buttons that load a level (Start, Next, Restart)
    away from the loading screen and from the error screen, the two screens
    that can be shown before the level list has arrived. *)
Definition levelButtonsAfterList (buttonShown : Button → Screen → bool)
    : bool :=
  forallb (fun b => negb (buttonShown b LoadingScreen)
                    && negb (buttonShown b ErrorScreen))
          [StartBtn; NextBtn; RestartBtn].

(** ** The server: level discovery (server.js) *)

(** The alternatives of the two regular expressions
    [/\.(jpg|jpeg|png|gif|webp)$/i] and [/\.(mp3|wav|ogg|m4a)$/i]. *)
Definition imageExtensions : list string :=
  ["jpg"; "jpeg"; "png"; "gif"; "webp"].
Definition audioExtensions : list string :=
  ["mp3"; "wav"; "ogg"; "m4a"].

(** Case folding of the flag [i] on the characters these patterns can
    match: the letters A to Z go to a to z, everything else stays. *)
Definition lowerAscii (c : Ascii.ascii) : Ascii.ascii :=
  let n := Ascii.nat_of_ascii c in
  if (65 <=? n) && (n <=? 90) then Ascii.ascii_of_nat (n + 32) else c.

Definition lowerChars (f : string) : list Ascii.ascii :=
  map lowerAscii (String.list_ascii_of_string f).

(** [/\.(e1|e2|...)$/i.test(f)]: [f] ends, letter case apart, with a dot
    and one of the extensions. *)
Definition hasExtension (extensions : list string) (f : string) : bool :=
  existsb (fun ext =>
             bool_decide (String.list_ascii_of_string ("." +:+ ext)
                          `suffix_of` lowerChars f))
          extensions.

Definition isImageFile (f : string) : bool := hasExtension imageExtensions f.
Definition isAudioFile (f : string) : bool := hasExtension audioExtensions f.

(** What the file system answers about a path: [statSync] fails
    ([existsSync] is false), or the path is something other than a
    directory, or it is a directory, whose [readdirSync] gives the names in
    it or fails. *)
Inductive Node :=
| Missing
| PlainFile
| Folder (listing : option (list string)).

(** What it answers about the directory [levels]: absent, present but not
    readable as a directory, or the items in it, each with its own
    answer. *)
Inductive LevelsDir :=
| NoLevelsDir
| UnreadableLevelsDir
| LevelsDirItems (items : list (string * Node)).

(** A response: the status set with [res.status] (200 when only [res.json]
    is called) and the object sent. *)
Record Response (A : Type) := mkResponse {
  status : nat;
  body : A
}.
Arguments mkResponse {A} status body.
Arguments status {A} r.
Arguments body {A} r.

(** The object sent by [GET /api/levels]: [{ error, levels }] or
    [{ levels }]. *)
Record LevelsBody := mkLevelsBody {
  lb_error : option string;
  lb_levels : list string
}.

(** The object sent by [GET /api/levels/:levelName]: [{ error }] or
    [{ level, image, audio }]. *)
Inductive LevelBody :=
| LevelError (error : string)
| LevelFiles (data : LevelData).

(** The callback of [items.filter]: [None] when [statSync] or
    [readdirSync] throws. *)
Definition validLevelFolder (item : string) (node : Node) : option bool :=
  match node with
  | Missing => None
  | PlainFile => Some false
  | Folder listing =>
      if negb (String.prefix "level_" item) then Some false
      else
        files ← listing;
        let hasImage := existsb isImageFile files in
        let hasAudio := existsb isAudioFile files in
        Some (hasImage && hasAudio)
  end.

(** [items.filter(...)], stopped by the first exception. *)
Fixpoint filterLevelFolders (items : list (string * Node))
    : option (list string) :=
  match items with
  | [] => Some (@nil string)
  | (item, node) :: rest =>
      match validLevelFolder item node, filterLevelFolders rest with
      | Some keep, Some kept => Some (if keep then item :: kept else kept)
      | _, _ => None
      end
  end.

Section LevelOrder.

(** [parseInt(item.replace('level_', ''), 10) || 0], the number the
    comparator reads off a folder name. A name is short enough for the
    number to be finite, and a finite number that [parseInt] returns is an
    integer; how [parseInt] reads the digits is left open. *)
Variable levelNumber : string → Z.

(** [(a, b) => numA - numB] puts [a] after [b] when the difference is
    positive. *)
Definition comesAfter (a b : string) : bool :=
  (0 <? levelNumber a - levelNumber b)%Z.

(** [Array.prototype.sort] is stable, and with a comparator that orders by
    a number its result is the one stable arrangement in ascending order,
    here reached by insertion from the right. *)
Fixpoint insertLevel (a : string) (sorted : list string) : list string :=
  match sorted with
  | [] => [a]
  | b :: rest => if comesAfter a b then b :: insertLevel a rest
                 else a :: b :: rest
  end.

Fixpoint sortLevels (levels : list string) : list string :=
  match levels with
  | [] => []
  | a :: rest => insertLevel a (sortLevels rest)
  end.

(** The handler of [GET /api/levels]. *)
Definition listLevels (dir : LevelsDir) : Response LevelsBody :=
  match dir with
  | NoLevelsDir =>
      mkResponse 404 (mkLevelsBody (Some "Levels directory not found") [])
  | UnreadableLevelsDir =>
      mkResponse 500 (mkLevelsBody (Some "Failed to read levels directory") [])
  | LevelsDirItems items =>
      match filterLevelFolders items with
      | Some levels => mkResponse 200 (mkLevelsBody None (sortLevels levels))
      | None =>
          mkResponse 500
            (mkLevelsBody (Some "Failed to read levels directory") [])
      end
  end.

End LevelOrder.

(** The handler of [GET /api/levels/:levelName]; [node] is what the file
    system answers about [path.join(__dirname, 'levels', levelName)]. *)
Definition getLevel (levelName : string) (node : Node) : Response LevelBody :=
  if negb (String.prefix "level_" levelName) then
    mkResponse 400 (LevelError "Invalid level name format")
  else
    match node with
    | Missing => mkResponse 404 (LevelError "Level not found")
    | PlainFile | Folder None =>
        mkResponse 500 (LevelError "Failed to read level data")
    | Folder (Some files) =>
        match find isImageFile files, find isAudioFile files with
        | Some imageFile, Some audioFile =>
            mkResponse 200
              (LevelFiles (mkLevelData levelName imageFile audioFile))
        | _, _ =>
            mkResponse 400
              (LevelError "Level is missing required files (image or audio)")
        end
    end.

(** What the client's [fetch] and [response.json()] make of a response:
    [response.ok] holds for the statuses 200 to 299. *)
Definition responseOk {A : Type} (r : Response A) : bool :=
  (200 <=? status r) && (status r <=? 299).

Definition levelsReply (r : Response LevelsBody)
    : FetchReply (option (list string)) :=
  if responseOk r then Json (Some (lb_levels (body r))) else NotOk.

(** A directory [levels] for the scenarios. *)
Definition sampleDir : LevelsDir :=
  LevelsDirItems
    [ ("level_2", Folder (Some ["vacation.PNG"; "memory.mp3"]));
      ("notes.txt", PlainFile);
      ("level_1", Folder (Some ["message.mp3"; "photo.jpg"; "extra.jpeg"]));
      ("drafts", Folder (Some ["a.png"; "a.wav"]));
      ("level_3", Folder (Some ["story.ogg"])) ].

(** ** The effect of a step, case by case *)

(** [state.audioElement.pause()] or [play()], if there is an element. *)
Definition audioPaused (v : bool) (g : Game) : Game :=
  match audioElement g with
  | Some a => set_audioElement (Some (setPaused v a)) g
  | None => g
  end.

(** The page after [renderPuzzle]. *)
Definition renderedPage (board : list Tile) (p : Page) : Page :=
  set_locked false
    (set_puzzleTiles
       (imap (fun currentIndex tile =>
                {| te_canvas := canvas tile;
                   te_correct := originalIndex tile =? currentIndex;
                   te_selected := false;
                   te_swapping := false |})
             board)
       p).

(** The page after [showError(message)]. *)
Definition errorPage (message : string) (p : Page) : Page :=
  set_screen ErrorScreen (set_errorMessage message p).

(** The session a step leads to, spelled out for every event: what
    [handle] computes when it does not stop at a fault. *)
Definition stepEffect (w : World) (e : Event) (w' : World) : Prop :=
  let g := state w in
  let p := page w in
  let pend := pending w in
  let ac := audioCreated w in
  let ps := puzzlesSolved w in
  match e with
  | ClickWith StartBtn _ =>
      w' = mkWorld g (set_screen LoadingScreen p)
                   (pend ++ [AwaitLevelData 0 (levels g !! 0)]) ac ps
  | ClickWith RetryBtn _ =>
      w' = mkWorld g (set_screen LoadingScreen p) (pend ++ [AwaitLevels]) ac ps
  | ClickWith ReplayBtn playAllowed =>
      w' = if playAllowed then mkWorld (audioPaused false g) p pend ac ps
           else w
  | ClickWith NextBtn _ =>
      w' = if length (levels g) - 1 <=? currentLevelIndex g
           then mkWorld (audioPaused true g) (set_screen FinalScreen p)
                        pend ac ps
           else mkWorld (audioPaused true g) (set_screen LoadingScreen p)
                        (pend ++ [AwaitLevelData (currentLevelIndex g + 1)
                                    (levels g !! (currentLevelIndex g + 1))])
                        ac ps
  | ClickWith RestartBtn _ =>
      w' = mkWorld (set_currentLevelIndex 0 g) (set_screen LoadingScreen p)
                   (pend ++ [AwaitLevelData 0 (levels g !! 0)]) ac ps
  | TileActivated index =>
      if isSolved g then w' = w
      else
        match selectedTile g with
        | None =>
            ∃ element,
              puzzleTiles p !! index = Some element
              ∧ w' = mkWorld (set_selectedTile (Some index) g)
                       (set_hintText "Now tap another tile to swap"
                          (set_puzzleTiles
                             (<[index := setSelected true element]>
                                (puzzleTiles p)) p))
                       pend ac ps
        | Some selected =>
            if decide (selected = index) then
              ∃ element,
                puzzleTiles p !! index = Some element
                ∧ w' = mkWorld (set_selectedTile None g)
                         (set_hintText "Tap two tiles to swap them"
                            (set_puzzleTiles
                               (<[index := setSelected false element]>
                                  (puzzleTiles p)) p))
                         pend ac ps
            else
              ∃ swapped e1 e2 e3,
                swapAt selected index (tiles g) = Some swapped
                ∧ puzzleTiles p !! selected = Some e1
                ∧ <[selected := addSwapping e1]> (puzzleTiles p) !! index
                  = Some e2
                ∧ <[index := addSwapping e2]>
                    (<[selected := addSwapping e1]> (puzzleTiles p))
                  !! selected = Some e3
                ∧ let elements :=
                    <[selected := setSelected false e3]>
                      (<[index := addSwapping e2]>
                         (<[selected := addSwapping e1]> (puzzleTiles p))) in
                  w' = if boardSolved swapped
                       then mkWorld
                              (set_isSolved true
                                 (set_selectedTile None (set_tiles swapped g)))
                              (set_hintText "Puzzle complete!"
                                 (set_locked true
                                    (set_hintText "Tap two tiles to swap them"
                                       (set_puzzleTiles elements p))))
                              ((pend ++ [RenderTimer]) ++ [CompletionTimer])
                              ac (S ps)
                       else mkWorld
                              (set_selectedTile None (set_tiles swapped g))
                              (set_hintText "Tap two tiles to swap them"
                                 (set_puzzleTiles elements p))
                              (pend ++ [RenderTimer]) ac ps
        end
  | LevelsFetched k reply =>
      pend !! k = Some AwaitLevels
      ∧ w' = match fetchLevels reply with
             | inl message =>
                 mkWorld g
                   (errorPage (if decide (message = "")
                               then "Failed to initialize game" else message)
                              p)
                   (delete k pend) ac ps
             | inr levels =>
                 mkWorld (set_levels levels g) (set_screen WelcomeScreen p)
                         (delete k pend) ac ps
             end
  | LevelDataFetched k reply =>
      ∃ levelIndex levelName,
        pend !! k = Some (AwaitLevelData levelIndex levelName)
        ∧ w' = match fetchLevelData levelName reply with
               | inl message =>
                   mkWorld g (errorPage ("Failed to load level: " +:+ message) p)
                           (delete k pend) ac ps
               | inr levelData =>
                   mkWorld
                     (set_gridSize (calculateGridSize levelIndex)
                        (set_currentLevelIndex levelIndex
                           (set_currentLevel (Some levelData) g)))
                     p (delete k pend ++ [AwaitImage levelIndex levelData])
                     ac ps
               end
  | ImageSettled k reply pick =>
      ∃ levelIndex levelData,
        pend !! k = Some (AwaitImage levelIndex levelData)
        ∧ match reply with
          | None =>
              w' = mkWorld g
                     (errorPage "Failed to load level: Failed to load image" p)
                     (delete k pend) ac ps
          | Some img =>
              ∃ shuffled,
                shuffleTiles pick (createTiles img (gridSize g)) = Some shuffled
                ∧ w' = mkWorld
                         (mkGame (levels g) (currentLevelIndex g)
                                 (currentLevel g) (gridSize g) shuffled None
                                 false (Some img) None)
                         (set_hintText "Tap two tiles to swap them"
                            (set_screen GameScreen (renderedPage shuffled p)))
                         (delete k pend) ac ps
          end
  | TimerFired k =>
      (pend !! k = Some RenderTimer
       ∧ w' = mkWorld g (renderedPage (tiles g) p) (delete k pend) ac ps)
      ∨ (pend !! k = Some CompletionTimer
         ∧ ∃ img levelData,
             originalImage g = Some img
             ∧ currentLevel g = Some levelData
             ∧ w' = mkWorld
                      (set_audioElement
                         (Some (mkAudio ac
                                  ("/levels/" +:+ level levelData +:+ "/"
                                   +:+ audio levelData)
                                  "auto" true))
                         g)
                      (set_screen CompletionScreen p)
                      (delete k pend ++ [CanPlayThrough ac]) (S ac) ps)
  | CanPlayThroughFired k playAllowed =>
      ∃ audioId,
        pend !! k = Some (CanPlayThrough audioId)
        ∧ w' = mkWorld
                 (match audioElement g with
                  | Some a =>
                      if decide (audio_id a = audioId)
                      then
                        if playAllowed
                        then set_audioElement (Some (setPaused false a)) g
                        else g
                      else g
                  | None => g
                  end)
                 p (delete k pend) ac ps
  end.

(** A load that asks for a level name that [state.levels] does not have
    would fetch [/api/levels/undefined]. *)
Definition namedTask (t : Task) : bool :=
  match t with AwaitLevelData _ None => false | _ => true end.

(** What holds on a layout that shows Start, Next and Restart only after
    the level list has arrived: until it has, the session shows the loading
    or the error screen, waits for nothing but level lists and has no tile
    on the page; and no pending load lacks its level name. *)
Record InvLevels (w : World) : Prop := mkInvLevels {
  il_fresh :
    levels (state w) = [] →
    (screen (page w) = LoadingScreen ∨ screen (page w) = ErrorScreen)
    ∧ Forall (fun t => t = AwaitLevels) (pending w)
    ∧ length (puzzleTiles (page w)) = 0;
  il_named : Forall (fun t => namedTask t = true) (pending w)
}.

(** The screens that show a board: the game screen and the completion
    screen. *)
Definition onBoardScreen (sc : Screen) : bool :=
  match sc with
  | GameScreen | CompletionScreen => true
  | _ => false
  end.

(** What holds about the grid on a layout that hides the load buttons on
    the game and loading screens: while a board is shown or an image is
    awaited, the grid size is the one of the current level index, and a
    shown board has that many rows and columns. *)
Record InvGrid (w : World) : Prop := mkInvGrid {
  ig_size :
    onBoardScreen (screen (page w)) = true
    ∨ 0 < countIf isAwaitImage (pending w) →
    gridSize (state w) = calculateGridSize (currentLevelIndex (state w));
  ig_board :
    onBoardScreen (screen (page w)) = true →
    length (tiles (state w)) = gridSize (state w) * gridSize (state w)
}.

(** What a pending load knows about the level list: the index it was
    started for is in the list, and once the level data have arrived it is
    the current level index. *)
Definition taskInList (g : Game) (t : Task) : Prop :=
  match t with
  | AwaitLevelData levelIndex _ => levelIndex < length (levels g)
  | AwaitImage levelIndex _ =>
      levelIndex < length (levels g) ∧ currentLevelIndex g = levelIndex
  | _ => True
  end.

(** What holds about the level index on a layout that hides the load
    buttons on the game and loading screens and shows Start, Next and
    Restart only after the level list has arrived. *)
Record InvIndex (w : World) : Prop := mkInvIndex {
  ii_tasks : Forall (taskInList (state w)) (pending w);
  ii_board :
    onBoardScreen (screen (page w)) = true →
    currentLevelIndex (state w) < length (levels (state w))
}.

(** The order the comparator of [GET /api/levels] sorts by. *)
Definition inLevelOrder (levelNumber : string → Z) (a b : string) : Prop :=
  (levelNumber a ≤ levelNumber b)%Z.

(** The numbers of the sample folders, as the comparator reads them. *)
Definition sampleNumber (name : string) : Z :=
  if decide (name = "level_1") then 1%Z
  else if decide (name = "level_2") then 2%Z
  else if decide (name = "level_3") then 3%Z
  else 0%Z.

(** * Properties of the shuffle engine *)

Section ArrayLemmas.

Implicit Types a : list Tile.

Lemma swapAt_is_Some i j a :
  i < length a → j < length a → is_Some (swapAt i j a).
Proof.
  intros Hi Hj. unfold swapAt.
  destruct (lookup_lt_is_Some_2 a j Hj) as [aj ->].
  destruct (lookup_lt_is_Some_2 a i Hi) as [ai ->].
  simpl. eauto.
Qed.

Lemma swapAt_Some_inv i j a a' :
  swapAt i j a = Some a' →
  ∃ ai aj, a !! i = Some ai ∧ a !! j = Some aj
           ∧ a' = <[j := ai]> (<[i := aj]> a).
Proof.
  unfold swapAt. intros H.
  destruct (a !! j) as [aj|] eqn:Ej; simpl in H; [|discriminate].
  destruct (a !! i) as [ai|] eqn:Ei; simpl in H; [|discriminate].
  injection H as <-. eauto.
Qed.

Lemma swapAt_Permutation i j a a' : swapAt i j a = Some a' → a' ≡ₚ a.
Proof.
  intros (ai & aj & Hi & Hj & ->)%swapAt_Some_inv.
  by apply Permutation_insert_swap.
Qed.

Lemma swapAt_length i j a a' : swapAt i j a = Some a' → length a' = length a.
Proof. intros H%swapAt_Permutation. by apply Permutation_length. Qed.

Lemma swapAt_in_range i j a a' :
  swapAt i j a = Some a' → i < length a ∧ j < length a.
Proof.
  intros (ai & aj & Hi & Hj & _)%swapAt_Some_inv.
  eauto using lookup_lt_Some.
Qed.

Lemma swapAt_first_two x y a : swapAt 0 1 (x :: y :: a) = Some (y :: x :: a).
Proof. reflexivity. Qed.

End ArrayLemmas.

Lemma picksInRange_spec pick n i :
  picksInRange pick n = true → i < n → pick i ≤ i.
Proof.
  unfold picksInRange. rewrite forallb_forall. intros H Hi.
  apply Nat.leb_le, H, in_seq. lia.
Qed.

Section FisherYates.

Variable pick : nat → nat.

Lemma fisherYates_loop indices (a : list Tile) :
  Forall (fun i => i < length a ∧ pick i ≤ i) indices →
  ∃ a', forLoop indices (fun i s => let j := pick i in swapAt i j s) a
        = Some a' ∧ a' ≡ₚ a.
Proof.
  revert a. induction indices as [|i rest IH]; intros a Hall.
  - exists a. split; reflexivity.
  - apply Forall_cons in Hall as [[Hi Hj] Hrest]. simpl.
    destruct (swapAt_is_Some i (pick i) a) as [a1 E1]; [lia..|].
    rewrite E1. simpl.
    pose proof (swapAt_Permutation _ _ _ _ E1) as P1.
    destruct (IH a1) as (a' & E' & P').
    { erewrite Permutation_length by exact P1. exact Hrest. }
    exists a'. split; [exact E'|]. by rewrite P'.
Qed.

Lemma fisherYates_total (tiles : list Tile) :
  picksInRange pick (length tiles) = true →
  ∃ mid, fisherYates pick (length tiles) tiles = Some mid ∧ mid ≡ₚ tiles.
Proof.
  intros Hpick. unfold fisherYates. apply fisherYates_loop.
  apply Forall_forall. intros i Hi.
  apply list_elem_of_In, in_rev, in_seq in Hi.
  split; [lia|]. apply (picksInRange_spec pick (length tiles)); [done|lia].
Qed.

Lemma fisherYates_tiny (tiles : list Tile) :
  length tiles ≤ 1 → fisherYates pick (length tiles) tiles = Some tiles.
Proof.
  intros Hn. unfold fisherYates.
  replace (length tiles - 1) with 0 by lia. reflexivity.
Qed.

End FisherYates.

Section Inversions.

Variable shuffled : list Tile.

(** The inner loop started at [j = s] adds to the count the tiles from
    position [s] on whose ordinal is below that of [shuffled[i]]. *)
Lemma countInversions_inner i si m s acc :
  shuffled !! i = Some si →
  s + m = length shuffled →
  forLoop (seq s m)
          (fun j inversions =>
             si ← shuffled !! i;
             sj ← shuffled !! j;
             Some (if originalIndex sj <? originalIndex si
                   then S inversions else inversions))
          acc
  = Some (acc + length (filter (fun y => y < originalIndex si)
                               (ordinals (drop s shuffled)))).
Proof.
  intros Hi. rewrite Hi. cbn [mbind option_bind].
  revert s acc. induction m as [|m IH]; intros s acc Hlen.
  - rewrite drop_ge by lia. simpl. f_equal. lia.
  - destruct (lookup_lt_is_Some_2 shuffled s) as [sj Hj]; [lia|].
    rewrite (drop_S _ _ _ Hj). cbn [seq forLoop]. rewrite Hj.
    cbn [mbind option_bind]. rewrite IH by lia. f_equal.
    unfold ordinals. cbn [map]. rewrite filter_cons.
    destruct (Nat.ltb_spec (originalIndex sj) (originalIndex si)).
    + rewrite decide_True by done. simpl. lia.
    + rewrite decide_False by lia. lia.
Qed.

Lemma countInversions_outer m s acc :
  s + m = length shuffled →
  forLoop (seq s m)
          (fun i inversions =>
             forLoop (seq (i + 1) (length shuffled - (i + 1)))
                     (fun j inversions =>
                        si ← shuffled !! i;
                        sj ← shuffled !! j;
                        Some (if originalIndex sj <? originalIndex si
                              then S inversions else inversions))
                     inversions)
          acc
  = Some (acc + inversionsOf (ordinals (drop s shuffled))).
Proof.
  revert s acc. induction m as [|m IH]; intros s acc Hlen.
  - rewrite drop_ge by lia. simpl. f_equal. lia.
  - destruct (lookup_lt_is_Some_2 shuffled s) as [si Hi]; [lia|].
    rewrite (drop_S _ _ _ Hi). simpl.
    rewrite (countInversions_inner s si) by (done || lia). simpl.
    rewrite IH by lia. f_equal.
    replace (s + 1) with (S s) by lia. unfold ordinals. lia.
Qed.

(** The nested loop reads inside the array only and computes the number
    of inversions of the ordinals. *)
Lemma countInversions_correct :
  countInversions (length shuffled) shuffled
  = Some (inversionsOf (ordinals shuffled)).
Proof.
  unfold countInversions. rewrite countInversions_outer by lia.
  by rewrite drop_0.
Qed.

End Inversions.

Lemma filter_below_seq x s m :
  x ≤ s → filter (fun y => y < x) (seq s m) = [].
Proof.
  revert s. induction m as [|m IH]; intros s Hs; [done|].
  cbn [seq]. rewrite filter_cons, decide_False by lia. apply IH. lia.
Qed.

(** A sorted run has no inversion. *)
Lemma inversionsOf_seq s m : inversionsOf (seq s m) = 0.
Proof.
  revert s. induction m as [|m IH]; intros s; [done|].
  cbn [seq inversionsOf]. rewrite IH, filter_below_seq by lia. done.
Qed.

(** Exchanging the first two entries, when they differ, changes the number
    of inversions by one. *)
Lemma inversionsOf_swap_first_two x y l :
  x ≠ y →
  Nat.odd (inversionsOf (y :: x :: l)) = negb (Nat.odd (inversionsOf (x :: y :: l))).
Proof.
  intros Hxy.
  assert (E : inversionsOf (y :: x :: l) = S (inversionsOf (x :: y :: l))
              ∨ inversionsOf (x :: y :: l) = S (inversionsOf (y :: x :: l))).
  { cbn [inversionsOf]. rewrite !filter_cons.
    destruct (decide (x < y)).
    - left. rewrite (decide_False (P := y < x)) by lia. cbn [length]. lia.
    - right. rewrite (decide_True (P := y < x)) by lia. cbn [length]. lia. }
  destruct E as [-> | ->]; rewrite Nat.odd_succ, <- Nat.negb_odd;
    [done | by rewrite negb_involutive].
Qed.

(** ** The solved check on a board *)

Lemma everyFrom_inPlace k (board : list Tile) :
  everyFrom inPlace k board = true ↔ ordinals board = seq k (length board).
Proof.
  revert k. induction board as [|t board IH]; intros k; [done|].
  cbn [everyFrom ordinals map length seq]. unfold inPlace at 1.
  destruct (Nat.eqb_spec (originalIndex t) k) as [->|Hne].
  - rewrite IH. unfold ordinals. split; [by intros ->|by intros [=]].
  - split; [done|]. intros [=]. done.
Qed.

Lemma boardSolved_ordinals (board : list Tile) :
  boardSolved board = true ↔ ordinals board = seq 0 (length board).
Proof. apply everyFrom_inPlace. Qed.

Lemma boardSolved_lookup (board : list Tile) :
  boardSolved board = true
  ↔ ∀ i tile, board !! i = Some tile → originalIndex tile = i.
Proof.
  rewrite boardSolved_ordinals. unfold ordinals. split.
  - intros H i tile Hi.
    assert (Hm : map originalIndex board !! i = Some (originalIndex tile))
      by (by rewrite list_lookup_fmap, Hi).
    rewrite H in Hm. apply lookup_seq in Hm. lia.
  - intros H. apply list_eq. intros i.
    rewrite list_lookup_fmap.
    destruct (board !! i) as [tile|] eqn:Hi; simpl.
    + rewrite (H i tile Hi). symmetry. apply lookup_seq_lt.
      by apply lookup_lt_Some in Hi.
    + symmetry. apply lookup_seq_ge. by apply lookup_ge_None in Hi.
Qed.

(** ** The tile partitioner *)

Lemma createTiles_rows image gridSize s m :
  ordinals
    (flat_map
       (fun row =>
          map (fun col =>
                 {| originalIndex := row * gridSize + col;
                    canvas := mkCanvas (img_src image) gridSize row col |})
              (seq 0 gridSize))
       (seq s m))
  = seq (s * gridSize) (m * gridSize).
Proof.
  revert s. induction m as [|m IH]; intros s; [done|].
  cbn [seq flat_map]. unfold ordinals in *. rewrite map_app, IH, map_map.
  cbn [originalIndex].
  replace (S m * gridSize) with (gridSize + m * gridSize) by lia.
  rewrite seq_app. f_equal.
  - apply list_eq. intros i. rewrite list_lookup_fmap.
    destruct (decide (i < gridSize)).
    + rewrite !lookup_seq_lt by done. done.
    + rewrite !lookup_seq_ge by lia. done.
  - f_equal. lia.
Qed.

(** [createTiles] hands the shuffle a board in solved order. *)
Lemma createTiles_ordinals image gridSize :
  ordinals (createTiles image gridSize) = seq 0 (gridSize * gridSize).
Proof. unfold createTiles. by rewrite createTiles_rows. Qed.

Lemma createTiles_length image gridSize :
  length (createTiles image gridSize) = gridSize * gridSize.
Proof.
  pose proof (f_equal length (createTiles_ordinals image gridSize)) as H.
  unfold ordinals in H. by rewrite length_map, length_seq in H.
Qed.

(** ** The shuffle as a whole *)

Lemma parity_test k : negb (k mod 2 =? 0) = Nat.odd k.
Proof.
  rewrite <- Nat.negb_even. f_equal.
  destruct (Nat.even k) eqn:E.
  - apply Nat.even_spec in E as [m ->]. apply Nat.eqb_eq.
    rewrite Nat.mul_comm. apply Nat.Div0.mod_mul.
  - apply Nat.eqb_neq. intros H.
    assert (Nat.even k = true); [|congruence].
    apply Nat.even_spec. exists (k / 2).
    pose proof (Nat.div_mod_eq k 2). lia.
Qed.

Lemma forLoop_swaps_Permutation (pick : nat → nat) indices
    (a a' : list Tile) :
  forLoop indices (fun i s => let j := pick i in swapAt i j s) a = Some a' →
  a' ≡ₚ a.
Proof.
  revert a. induction indices as [|i rest IH]; intros a H; simpl in H.
  - by injection H as <-.
  - destruct (swapAt i (pick i) a) as [a1|] eqn:E1; [|discriminate].
    simpl in H. rewrite (IH _ H). by eapply swapAt_Permutation.
Qed.

Lemma fisherYates_Permutation pick n (a mid : list Tile) :
  fisherYates pick n a = Some mid → mid ≡ₚ a.
Proof. apply forLoop_swaps_Permutation. Qed.

(** The parity fix, in terms of the board the random step leaves. *)
Lemma shuffleTiles_after_random_step pick (tiles mid : list Tile) :
  fisherYates pick (length tiles) tiles = Some mid →
  countInversions (length tiles) mid = Some (inversionsOf (ordinals mid))
  ∧ shuffleTiles pick tiles
    = if Nat.odd (inversionsOf (ordinals mid)) then swapAt 0 1 mid
      else Some mid.
Proof.
  intros Hmid.
  pose proof (Permutation_length (fisherYates_Permutation _ _ _ _ Hmid)) as Hlen.
  assert (Hcount : countInversions (length tiles) mid
                   = Some (inversionsOf (ordinals mid)))
    by (rewrite <- Hlen; apply countInversions_correct).
  split; [exact Hcount|].
  unfold shuffleTiles. cbn zeta. rewrite Hmid. cbn [mbind option_bind].
  rewrite Hcount. cbn [mbind option_bind]. by rewrite parity_test.
Qed.

(** An odd count needs two tiles, so the parity fix finds both positions. *)
Lemma odd_inversions_two_tiles (mid : list Tile) :
  Nat.odd (inversionsOf (ordinals mid)) = true →
  ∃ x y rest, mid = x :: y :: rest.
Proof.
  destruct mid as [|x [|y rest]]; [discriminate..|]. eauto.
Qed.

Lemma shuffleTiles_total pick (tiles : list Tile) :
  picksInRange pick (length tiles) = true →
  ∃ board, shuffleTiles pick tiles = Some board ∧ board ≡ₚ tiles.
Proof.
  intros Hpick.
  destruct (fisherYates_total pick tiles Hpick) as (mid & Hmid & Pmid).
  destruct (shuffleTiles_after_random_step _ _ _ Hmid) as [_ ->].
  destruct (Nat.odd _) eqn:Hodd.
  - apply odd_inversions_two_tiles in Hodd as (x & y & rest & ->).
    exists (y :: x :: rest). split; [done|].
    by rewrite <- Pmid, Permutation_swap.
  - eauto.
Qed.

Lemma ordinals_Permutation (a b : list Tile) :
  a ≡ₚ b → ordinals a ≡ₚ ordinals b.
Proof. intros H. unfold ordinals. by rewrite H. Qed.

(** Whatever the draws, a board the shuffle returns is a rearrangement of
    its input. *)
Lemma shuffleTiles_Permutation pick (tiles board : list Tile) :
  shuffleTiles pick tiles = Some board → board ≡ₚ tiles.
Proof.
  intros Hboard.
  destruct (fisherYates pick (length tiles) tiles) as [mid|] eqn:Hmid;
    [|by unfold shuffleTiles in Hboard; cbn zeta in Hboard;
       rewrite Hmid in Hboard].
  pose proof (fisherYates_Permutation _ _ _ _ Hmid) as Pmid.
  destruct (shuffleTiles_after_random_step _ _ _ Hmid) as [_ E].
  rewrite E in Hboard. destruct (Nat.odd _).
  - by rewrite (swapAt_Permutation _ _ _ _ Hboard).
  - by injection Hboard as <-.
Qed.

(** With pairwise different ordinals the returned board has an even number
    of inversions. *)
Lemma shuffleTiles_even pick (tiles board : list Tile) :
  NoDup (ordinals tiles) →
  shuffleTiles pick tiles = Some board →
  Nat.odd (inversionsOf (ordinals board)) = false.
Proof.
  intros Hnd Hboard.
  destruct (fisherYates pick (length tiles) tiles) as [mid|] eqn:Hmid;
    [|by unfold shuffleTiles in Hboard; cbn zeta in Hboard;
       rewrite Hmid in Hboard].
  pose proof (fisherYates_Permutation _ _ _ _ Hmid) as Pmid.
  destruct (shuffleTiles_after_random_step _ _ _ Hmid) as [_ E].
  rewrite E in Hboard. clear E.
  destruct (Nat.odd (inversionsOf (ordinals mid))) eqn:Hodd.
  - destruct (odd_inversions_two_tiles _ Hodd) as (x & y & rest & ->).
    injection Hboard as <-.
    assert (Hxy : originalIndex x ≠ originalIndex y).
    { apply ordinals_Permutation in Pmid. rewrite <- Pmid in Hnd.
      cbn in Hnd. apply NoDup_cons in Hnd as [Hx _].
      intros Heq. apply Hx. rewrite Heq. left. }
    cbn [ordinals map] in *.
    by rewrite (inversionsOf_swap_first_two _ _ _ Hxy), Hodd.
  - by injection Hboard as <-.
Qed.

Lemma NoDup_solved_order (tiles : list Tile) :
  ordinals tiles = seq 0 (length tiles) → NoDup (ordinals tiles).
Proof. intros ->. apply NoDup_seq. Qed.

(** * Properties of the session *)

Lemma countIf_app p l1 l2 : countIf p (l1 ++ l2) = countIf p l1 + countIf p l2.
Proof. induction l1 as [|t l1 IH]; simpl; [done|]. rewrite IH. lia. Qed.

Lemma countIf_delete p l k t :
  l !! k = Some t →
  countIf p l = (if p t then 1 else 0) + countIf p (delete k l).
Proof.
  revert k. induction l as [|t' l IH]; intros [|k] H; simplify_eq/=; [done|].
  rewrite (IH k H). lia.
Qed.

Lemma lookup_pending_count p (pend : list Task) k t :
  pend !! k = Some t → p t = true → 0 < countIf p pend.
Proof. intros Hk Hp. rewrite (countIf_delete p _ _ _ Hk), Hp. lia. Qed.

Lemma Inv_initial : Inv initialWorld.
Proof.
  split; simpl; try done; try lia; try (by left).
  intros [|H]; [done|lia].
Qed.

Lemma InvBoard_initial : InvBoard initialWorld.
Proof. by split. Qed.

Lemma ordinals_after_swap i j (a a' : list Tile) :
  swapAt i j a = Some a' →
  ordinals a ≡ₚ seq 0 (length a) →
  ordinals a' ≡ₚ seq 0 (length a').
Proof.
  intros Hswap Ha. pose proof (swapAt_Permutation _ _ _ _ Hswap) as P.
  by rewrite (ordinals_Permutation _ _ P), (Permutation_length P).
Qed.

Lemma ordinals_after_load pick img n (board : list Tile) :
  shuffleTiles pick (createTiles img n) = Some board →
  ordinals board ≡ₚ seq 0 (length board).
Proof.
  intros P%shuffleTiles_Permutation.
  rewrite (ordinals_Permutation _ _ P), (Permutation_length P).
  by rewrite createTiles_ordinals, createTiles_length.
Qed.

(** A button that starts a load is pressed on a screen other than the game
    screen and the loading screen. *)
Lemma load_button_screen layout b sc :
  loadButtonsHidden layout = true →
  b ≠ ReplayBtn →
  layout b sc = true →
  sc ≠ GameScreen ∧ sc ≠ LoadingScreen.
Proof.
  unfold loadButtonsHidden. rewrite forallb_forall. intros Hall Hb Hshown.
  assert (Hin : In b loadButtons) by (destruct b; simpl; tauto).
  apply Hall, andb_true_iff in Hin as [HG%negb_true_iff HL%negb_true_iff].
  split; intros ->; congruence.
Qed.

Ltac unfold_handlers :=
  repeat progress unfold handle, onClick, resume, takeTask, handleTileClick,
    swapTiles, handlePuzzleSolved, checkSolved, createAndPlayAudio,
    showCompletionScreen, loadLevel, loadLevel_afterLevelData,
    loadLevel_afterImage, loadLevel_catch, nextLevel, restart, init,
    init_afterLevels, onCanPlayThrough, renderPuzzle, updateTileElement,
    showError, showScreen, setHint, required, countSolved,
    createAudioElement, addTask, modifyState, modifyPage, getState, getPage,
    bind, ret, fault in *.

(** Use the implications of the invariant whose premises hold, and split
    the alternatives they give. *)
Ltac inv_forward :=
  repeat match goal with
  | H : _ ∨ _ |- _ => destruct H
  | H : ?P → _ |- _ =>
      match type of P with
      | Prop =>
          let HP := fresh in
          assert (HP : P)
            by first [ lia | congruence | (left; congruence) | (right; lia) ];
          specialize (H HP); clear HP
      end
  end.

(** Decide whether a task of some kind is pending, and use what the
    invariant says if one is. *)
Ltac inv_split_counts :=
  repeat match goal with
  | H : 0 < ?c → _ |- _ =>
      let E := fresh "E" in
      destruct (Nat.eq_dec c 0) as [E|E];
      [ clear H | specialize (H ltac:(lia)) ]
  end.

Ltac inv_close :=
  simpl; rewrite ?countIf_app, ?length_insert, ?length_imap; simpl; intros;
  inv_split_counts; inv_forward; destruct_and?;
  first [ lia | congruence | done | by eauto
        | (split; first [ lia | congruence ])
        | (left; first [ lia | congruence ])
        | (right; first [ lia | congruence ]) ].

(** What resuming the [k]-th task does to the counts of pending tasks. *)
Ltac count_taken_task :=
  match goal with
  | H : ?pend !! ?k = Some ?t |- _ =>
      pose proof (countIf_delete isAsync _ _ _ H);
      pose proof (countIf_delete isCompletionTimer _ _ _ H);
      pose proof (countIf_delete isAwaitImage _ _ _ H)
  end.

Ltac absurd_lookup :=
  match goal with
  | H : _ !! _ = None |- _ =>
      apply lookup_ge_None in H; rewrite ?length_insert in H; lia
  | H : swapAt ?i ?j ?a = None |- _ =>
      destruct (swapAt_is_Some i j a) as [? ?]; [lia..|congruence]
  end.

Section AnyLayout.

Variable layout : Button → Screen → bool.

Lemma step_inv (w : World) (e : Event) (w' : World) :
  step layout w e = Some w' →
  enabled layout e w = true ∧ ∃ u, handle e w = Some (u, w').
Proof.
  unfold step. destruct (enabled layout e w); [|done].
  destruct (handle e w) as [[u w1]|]; [|done].
  intros [= <-]. eauto.
Qed.

Lemma run_reachable events w w' :
  reachable layout w → run layout events w = Some w' → reachable layout w'.
Proof.
  revert w. induction events as [|e rest IH]; intros w Hw H; simpl in H.
  - by injection H as <-.
  - destruct (step layout w e) as [w1|] eqn:E; [|discriminate].
    eapply IH; [|exact H]. by eapply reachable_step.
Qed.

(** The page shows one element per tile and the selection is a position of
    the board, whatever the layout. *)
Lemma InvBoard_step (w : World) e w' :
  InvBoard w → step layout w e = Some w' → InvBoard w'.
Proof.
  intros [] (Hen & [] & H)%step_inv.
  destruct w as [g p pend ac ps]. simpl in *.
  destruct e as [[] allowed|index|k r|k r|k r pick|k|k allowed]; simpl in Hen;
    unfold_handlers; simpl in *; repeat case_match; simplify_eq/=;
    repeat match goal with
    | H : swapAt _ _ _ = Some _ |- _ =>
        pose proof (ordinals_after_swap _ _ _ _ H invb_ordinals0);
        apply swapAt_length in H
    | H : shuffleTiles _ _ = Some _ |- _ =>
        apply ordinals_after_load in H
    end;
    split; simpl; rewrite ?length_insert, ?length_imap; intros;
    rewrite ?Nat.ltb_lt in *;
    first [ done | congruence | lia | (simplify_eq; lia) | by eauto ].
Qed.

Lemma reachable_InvBoard (w : World) : reachable layout w → InvBoard w.
Proof.
  induction 1 as [|w e w' _ IH Hstep]; [apply InvBoard_initial|].
  by eapply InvBoard_step.
Qed.

(** ** No handler stops at a fault *)

Lemma step_total (w : World) e :
  Inv w → enabled layout e w = true → is_Some (step layout w e).
Proof.
  intros [] Hen. unfold step. rewrite Hen.
  destruct w as [g p pend ac ps]. simpl in *.
  destruct e as [b allowed|index|k r|k r|k r pick|k|k allowed]; simpl in Hen.
  - destruct b; unfold_handlers; simpl; repeat case_match;
      simplify_eq/=; eauto.
  - apply Nat.ltb_lt in Hen.
    unfold_handlers; simpl; repeat case_match; simplify_eq/=; eauto;
      try specialize (inv_selected0 _ eq_refl); exfalso; absurd_lookup.
  - destruct (pend !! k) as [[]|] eqn:Hk; try done.
    unfold_handlers; simpl; rewrite Hk; simpl.
    repeat case_match; simplify_eq/=; eauto.
  - destruct (pend !! k) as [[]|] eqn:Hk; try done.
    unfold_handlers; simpl; rewrite Hk; simpl.
    repeat case_match; simplify_eq/=; eauto.
  - destruct (pend !! k) as [[]|] eqn:Hk; try done.
    unfold_handlers; simpl; rewrite Hk; simpl.
    destruct r as [img|]; simpl; eauto.
    rewrite <- (createTiles_length img) in Hen.
    destruct (shuffleTiles_total _ _ Hen) as (board & -> & _). simpl.
    repeat case_match; simplify_eq/=; eauto.
  - destruct (pend !! k) as [t|] eqn:Hk; try done.
    pose proof (lookup_pending_count isCompletionTimer _ _ _ Hk) as Hc.
    destruct t; try done;
      unfold_handlers; simpl; rewrite Hk; simpl; eauto.
    destruct (inv_timer0 (Hc eq_refl)) as [Hscreen _].
    destruct (inv_game0 Hscreen) as [img Himg].
    destruct (inv_level0 (or_introl Hscreen)) as [lv Hlv].
    repeat case_match; simplify_eq/=; eauto; congruence.
  - destruct (pend !! k) as [[]|] eqn:Hk; try done.
    unfold_handlers; simpl; rewrite Hk; simpl.
    repeat case_match; simplify_eq/=; eauto.
Qed.

End AnyLayout.

Section HiddenLoadButtons.

Variable layout : Button → Screen → bool.
Hypothesis layout_ok : loadButtonsHidden layout = true.

Lemma Inv_click (w : World) b playAllowed w' :
  Inv w → step layout w (ClickWith b playAllowed) = Some w' → Inv w'.
Proof.
  intros [] (Hen & [] & H)%step_inv.
  destruct w as [g p pend ac ps]. simpl in *.
  assert (Hscreen : b ≠ ReplayBtn →
                    screen p ≠ GameScreen ∧ screen p ≠ LoadingScreen)
    by (intros Hb; by apply (load_button_screen layout b)).
  destruct b;
    first [ specialize (Hscreen ltac:(discriminate)) | clear Hscreen ];
    unfold_handlers; simpl in *; repeat case_match;
    simplify_eq/=; split; inv_close.
Qed.

Lemma Inv_tile (w : World) index w' :
  Inv w → step layout w (TileActivated index) = Some w' → Inv w'.
Proof.
  intros [] (Hen & [] & H)%step_inv.
  destruct w as [g p pend ac ps]. simpl in *.
  apply Nat.ltb_lt in Hen.
  unfold_handlers; simpl in *; repeat case_match; simplify_eq/=;
    repeat match goal with
    | H : swapAt _ _ _ = Some _ |- _ => apply swapAt_length in H
    end;
    split; inv_close.
Qed.

Lemma Inv_resume (w : World) e w' :
  (∀ b playAllowed, e ≠ ClickWith b playAllowed) →
  (∀ index, e ≠ TileActivated index) →
  Inv w → step layout w e = Some w' → Inv w'.
Proof.
  intros Hb Hi [] (Hen & [] & H)%step_inv.
  destruct w as [g p pend ac ps]. simpl in *.
  destruct e as [b allowed|index|k r|k r|k r pick|k|k allowed];
    [by destruct (Hb b allowed)|by destruct (Hi index)|..];
    clear Hb Hi; simpl in Hen;
    destruct (pend !! k) as [t|] eqn:Hk; try done;
    count_taken_task; destruct t; try done;
    unfold_handlers; simpl in *; rewrite Hk in H; simpl in H;
    repeat case_match; simplify_eq/=; split; inv_close.
Qed.

(** The invariant holds in every reachable session. *)
Lemma Inv_step (w : World) e w' :
  Inv w → step layout w e = Some w' → Inv w'.
Proof.
  destruct e as [b allowed|index| | | | | ];
    [apply Inv_click|apply Inv_tile|apply Inv_resume; done..].
Qed.

Lemma reachable_Inv (w : World) : reachable layout w → Inv w.
Proof.
  induction 1 as [|w e w' _ IH Hstep]; [apply Inv_initial|].
  by eapply Inv_step.
Qed.

End HiddenLoadButtons.

(** ** The effect of a step *)

Lemma countIf_le p q l :
  (∀ t, p t = true → q t = true) → countIf p l ≤ countIf q l.
Proof.
  intros Hpq. induction l as [|t l IH]; simpl; [done|].
  destruct (p t) eqn:E; [rewrite (Hpq t E)|]; lia.
Qed.

Lemma step_effect layout (w : World) e w' :
  step layout w e = Some w' → enabled layout e w = true ∧ stepEffect w e w'.
Proof.
  intros (Hen & [] & H)%step_inv. split; [done|]. clear Hen.
  destruct w as [g p pend ac ps]. unfold stepEffect. cbn [state page pending audioCreated puzzlesSolved].
  destruct e as [[] allowed|index|k r|k r|k r pick|k|k allowed].
  - unfold_handlers. simpl in H. by simplify_eq.
  - unfold_handlers. simpl in H. by simplify_eq.
  - unfold_handlers. unfold audioPaused. simpl in *.
    destruct (audioElement g), allowed; by simplify_eq.
  - unfold_handlers. unfold audioPaused. simpl in *.
    destruct (audioElement g); simpl in *; repeat case_match; simplify_eq;
      done.
  - unfold_handlers. simpl in H. by simplify_eq.
  - unfold_handlers. simpl in H.
    destruct (isSolved g); [by simplify_eq|].
    destruct (selectedTile g) as [selected|].
    + destruct (decide (selected = index)) as [->|Hne].
      * simpl in H. destruct (puzzleTiles p !! index) as [el|]; [|done].
        simpl in H. exists el. by simplify_eq.
      * simpl in H.
        destruct (swapAt selected index (tiles g)) as [swapped|]; [|done].
        simpl in H.
        destruct (puzzleTiles p !! selected) as [e1|]; [|done]. simpl in H.
        destruct (_ !! index) as [e2|] eqn:E2; [|done]. simpl in H.
        destruct (_ !! selected) as [e3|] eqn:E3 in H; [|done]. simpl in H.
        exists swapped, e1, e2, e3. split; [done|]. split; [done|].
        split; [done|]. split; [done|]. cbn zeta.
        destruct (boardSolved swapped); simpl in H; by simplify_eq.
    + simpl in H. destruct (puzzleTiles p !! index) as [el|]; [|done].
      simpl in H. exists el. by simplify_eq.
  - unfold_handlers. simpl in H.
    destruct (pend !! k) as [[]|]; try done. simpl in H. split; [done|].
    unfold errorPage. destruct (fetchLevels r); by simplify_eq.
  - unfold_handlers. simpl in H.
    destruct (pend !! k) as [[]|]; try done. simpl in H.
    eexists _, _. split; [done|].
    unfold errorPage. destruct (fetchLevelData _ r); by simplify_eq.
  - unfold_handlers. simpl in H.
    destruct (pend !! k) as [[]|]; try done. simpl in H.
    eexists _, _. split; [done|].
    destruct r as [img|]; simpl in H; [|by simplify_eq].
    destruct (shuffleTiles _ _) as [shuffled|]; [|done]. simpl in H.
    exists shuffled. split; [done|].
    destruct g as [? ? ? ? ? ? ? ? element]; simpl in *.
    destruct element; by simplify_eq.
  - unfold_handlers. simpl in H.
    destruct (pend !! k) as [[]|]; try done; simpl in H.
    + left. by simplify_eq.
    + right. split; [done|].
      destruct (originalImage g) as [img|]; [|done]. simpl in H.
      destruct (currentLevel g) as [lv|] eqn:Hlv.
      * exists img, lv. split; [done|]. split; [done|].
        destruct (audioElement g); simpl in H; by simplify_eq.
      * destruct (audioElement g); simpl in H; done.
  - unfold_handlers. simpl in H.
    destruct (pend !! k) as [[]|]; try done; simpl in H.
    eexists. split; [done|].
    destruct (audioElement g); [case_match; destruct allowed|];
      by simplify_eq.
Qed.

(** Split the effect of a step into its cases, down to the session it
    leads to. *)
Ltac effect_cases E :=
  unfold stepEffect in E;
  cbn [state page pending audioCreated puzzlesSolved] in E; cbn zeta in E;
  repeat match type of E with
  | match ?x with _ => _ end => destruct x eqn:?
  | _ ∧ _ => let E' := fresh "Hk" in destruct E as [E' E]
  | ∃ _, _ => destruct E as [? E]
  | _ ∨ _ => destruct E as [E|E]
  | _ = match ?x with _ => _ end => destruct x eqn:?
  end; subst.

Lemma audioPaused_levels v g : levels (audioPaused v g) = levels g.
Proof. unfold audioPaused. by destruct (audioElement g). Qed.

Lemma audioPaused_currentLevelIndex v g : currentLevelIndex (audioPaused v g) = currentLevelIndex g.
Proof. unfold audioPaused. by destruct (audioElement g). Qed.

Lemma audioPaused_currentLevel v g : currentLevel (audioPaused v g) = currentLevel g.
Proof. unfold audioPaused. by destruct (audioElement g). Qed.

Lemma audioPaused_gridSize v g : gridSize (audioPaused v g) = gridSize g.
Proof. unfold audioPaused. by destruct (audioElement g). Qed.

Lemma audioPaused_tiles v g : tiles (audioPaused v g) = tiles g.
Proof. unfold audioPaused. by destruct (audioElement g). Qed.

Lemma audioPaused_selectedTile v g : selectedTile (audioPaused v g) = selectedTile g.
Proof. unfold audioPaused. by destruct (audioElement g). Qed.

Lemma audioPaused_isSolved v g : isSolved (audioPaused v g) = isSolved g.
Proof. unfold audioPaused. by destruct (audioElement g). Qed.

Lemma audioPaused_originalImage v g : originalImage (audioPaused v g) = originalImage g.
Proof. unfold audioPaused. by destruct (audioElement g). Qed.

Ltac audio_frame :=
  rewrite ?audioPaused_levels, ?audioPaused_currentLevelIndex,
    ?audioPaused_currentLevel, ?audioPaused_gridSize, ?audioPaused_tiles,
    ?audioPaused_selectedTile, ?audioPaused_isSolved,
    ?audioPaused_originalImage in *.

Lemma shownOnPage_rendered board p :
  shownOnPage (renderedPage board p) = shownBoard board.
Proof.
  unfold shownOnPage, shownBoard, renderedPage. simpl.
  change (map ?f ?l) with (f <$> l). by rewrite fmap_imap.
Qed.

Lemma shownOnPage_update (p : Page) i element f text :
  puzzleTiles p !! i = Some element →
  te_canvas (f element) = te_canvas element →
  te_correct (f element) = te_correct element →
  shownOnPage
    (set_hintText text
       (set_puzzleTiles (<[i := f element]> (puzzleTiles p)) p))
  = shownOnPage p.
Proof.
  intros Hel Hc Hr. unfold shownOnPage. simpl.
  change (map ?f ?l) with (f <$> l).
  rewrite list_fmap_insert, Hc, Hr. apply list_insert_id.
  by rewrite list_lookup_fmap, Hel.
Qed.

(** * The claims *)

(** C8. For every level index the grid size is the smaller of
    [3 + levelIndex] and [6]; for the level indices 0, 1, 2, 3, 4 it is 3, 4,
    5, 6, 6; and this is the size [loadLevel] stores when the level data
    arrive. *)
Theorem calculateGridSize_min (levelIndex : nat) :
  calculateGridSize levelIndex = Nat.min (3 + levelIndex) 6
  ∧ map calculateGridSize [0; 1; 2; 3; 4] = [3; 4; 5; 6; 6]
  ∧ ∀ (w : World) levelName levelData,
      ∃ w', loadLevel_afterLevelData levelIndex levelName (Json levelData) w
            = Some (tt, w')
            ∧ gridSize (state w') = Nat.min (3 + levelIndex) 6.
Proof.
  split; [reflexivity|]. split; [reflexivity|].
  intros w levelName levelData. eexists. split; reflexivity.
Qed.

(** C5. The solved check returns without changing the session; its result
    is [true] exactly when every position [i] of the board holds the tile
    of origin ordinal [i]; and a second call returns the same result, again
    without changing anything. *)
Theorem checkSolved_pure (w : World) :
  ∃ b : bool,
    checkSolved w = Some (b, w)
    ∧ (b = true
       ↔ ∀ i tile, tiles (state w) !! i = Some tile → originalIndex tile = i)
    ∧ (b1 <- checkSolved ;; b2 <- checkSolved ;; ret (b1, b2)) w
      = Some ((b, b), w).
Proof.
  exists (boardSolved (tiles (state w))).
  split; [reflexivity|]. split; [apply boardSolved_lookup|reflexivity].
Qed.

(** C10. On a board of at most one tile in solved order the shuffle makes
    no draw and no swap and reads no position outside the board: the random
    step returns the board as it is, the inversion count is 0, so the parity
    fix is not taken, the shuffle returns the board unchanged, and the
    solved check reports it solved. *)
Theorem shuffleTiles_tiny_board (pick : nat → nat) (board : list Tile) :
  length board ≤ 1 →
  ordinals board = seq 0 (length board) →
  fisherYates pick (length board) board = Some board
  ∧ (∃ inversions,
       countInversions (length board) board = Some inversions
       ∧ negb (inversions mod 2 =? 0) = false)
  ∧ shuffleTiles pick board = Some board
  ∧ boardSolved board = true
  ∧ ∀ w : World, tiles (state w) = board → checkSolved w = Some (true, w).
Proof.
  intros Hlen Hsolved.
  pose proof (fisherYates_tiny pick board Hlen) as Hmid.
  destruct (shuffleTiles_after_random_step _ _ _ Hmid) as [Hcount Hshuffle].
  assert (Hzero : inversionsOf (ordinals board) = 0)
    by (rewrite Hsolved; apply inversionsOf_seq).
  rewrite Hzero in Hcount, Hshuffle.
  assert (Hb : boardSolved board = true) by by apply boardSolved_ordinals.
  split; [done|]. split; [by exists 0|]. split; [done|]. split; [done|].
  intros w Hw. unfold checkSolved, bind, getState, ret. by rewrite Hw, Hb.
Qed.

Lemma shuffleTiles_tiny_board_witness :
  shuffleTiles identityPicks (createTiles sampleImage 1)
  = Some (createTiles sampleImage 1)
  ∧ boardSolved (createTiles sampleImage 1) = true.
Proof.
  destruct (shuffleTiles_tiny_board identityPicks (createTiles sampleImage 1))
    as (_ & _ & Hshuffle & Hsolved & _).
  - simpl. lia.
  - reflexivity.
  - split; [exact Hshuffle|exact Hsolved].
Defined.

(** C4. After the random step the shuffle counts the inversions of the
    board and exchanges positions 0 and 1 exactly when the count is odd;
    the board it returns has an even number of inversions. On the 2 x 2
    board, a random step ending in the order 1, 0, 3, 2 (2 inversions) is
    followed by no exchange; one ending in 3, 1, 2, 0 (5 inversions) is
    followed by the exchange, which gives 1, 3, 2, 0. *)
Theorem shuffleTiles_parity_fix :
  (∀ (pick : nat → nat) (board : list Tile),
     ordinals board = seq 0 (length board) →
     picksInRange pick (length board) = true →
     ∃ mid result,
       fisherYates pick (length board) board = Some mid
       ∧ countInversions (length board) mid
         = Some (inversionsOf (ordinals mid))
       ∧ shuffleTiles pick board = Some result
       ∧ (if Nat.odd (inversionsOf (ordinals mid))
          then swapAt 0 1 mid = Some result
          else result = mid)
       ∧ countInversions (length board) result
         = Some (inversionsOf (ordinals result))
       ∧ Nat.even (inversionsOf (ordinals result)) = true)
  ∧ (ordinals <$> fisherYates (picksOf [0; 0; 2; 2]) 4 board2x2
       = Some [1; 0; 3; 2]
     ∧ inversionsOf [1; 0; 3; 2] = 2
     ∧ ordinals <$> shuffleTiles (picksOf [0; 0; 2; 2]) board2x2
       = Some [1; 0; 3; 2])
  ∧ (ordinals <$> fisherYates (picksOf [0; 1; 2; 0]) 4 board2x2
       = Some [3; 1; 2; 0]
     ∧ inversionsOf [3; 1; 2; 0] = 5
     ∧ ordinals <$> shuffleTiles (picksOf [0; 1; 2; 0]) board2x2
       = Some [1; 3; 2; 0]).
Proof.
  split; [|split; repeat split; reflexivity].
  intros pick board Hsolved Hpick.
  destruct (fisherYates_total pick board Hpick) as (mid & Hmid & Pmid).
  destruct (shuffleTiles_after_random_step _ _ _ Hmid) as [Hcount Hshuffle].
  destruct (shuffleTiles_total pick board Hpick) as (result & Hres & Pres).
  exists mid, result. split; [done|]. split; [done|]. split; [done|].
  split.
  { rewrite Hres in Hshuffle. destruct (Nat.odd _); congruence. }
  split.
  { rewrite <- (Permutation_length Pres). apply countInversions_correct. }
  rewrite <- Nat.negb_odd.
  by rewrite (shuffleTiles_even pick board result
                (NoDup_solved_order _ Hsolved) Hres).
Qed.

Lemma shuffleTiles_parity_fix_witness :
  ∃ mid result,
    fisherYates (picksOf [0; 1; 2; 0]) 4 board2x2 = Some mid
    ∧ shuffleTiles (picksOf [0; 1; 2; 0]) board2x2 = Some result
    ∧ Nat.even (inversionsOf (ordinals result)) = true.
Proof.
  destruct (proj1 shuffleTiles_parity_fix (picksOf [0; 1; 2; 0]) board2x2)
    as (mid & result & Hmid & _ & Hres & _ & _ & Heven).
  - reflexivity.
  - reflexivity.
  - exists mid, result. split; [exact Hmid|]. split; [exact Hres|exact Heven].
Defined.

Lemma inversionsOf_first_two_exchanged m :
  inversionsOf (1 :: 0 :: seq 2 m) = 1.
Proof.
  cbn [inversionsOf]. rewrite inversionsOf_seq, filter_cons.
  rewrite decide_True by lia.
  rewrite !filter_below_seq by lia. reflexivity.
Qed.

(** The draws that make the random step exchange tiles 0 and 1 only; the
    parity fix then puts them back. *)
Example shuffleTiles_fix_restores_solved_order :
  let board := createTiles sampleImage 3 in
  ordinals <$> fisherYates (picksOf [0; 0; 2; 3; 4; 5; 6; 7; 8]) 9 board
  = Some [1; 0; 2; 3; 4; 5; 6; 7; 8]
  ∧ shuffleTiles (picksOf [0; 0; 2; 3; 4; 5; 6; 7; 8]) board = Some board.
Proof. split; reflexivity. Qed.

(** C3, as stated, fails: on the 3 x 3 board in solved order the draws
    [j = i] are draws [Math.random] can produce, and the shuffle returns
    the board in solved order. *)
Lemma shuffleTiles_can_return_solved :
  let board := createTiles sampleImage 3 in
  ordinals board = seq 0 (length board)
  ∧ 1 < length board
  ∧ picksInRange identityPicks (length board) = true
  ∧ shuffleTiles identityPicks board = Some board
  ∧ boardSolved board = true.
Proof. repeat split; (reflexivity || (simpl; lia)). Qed.

(** C3, amended. For a board of more than one tile in solved order the
    shuffle returns a permutation of it, and the result is already solved
    exactly when the random step left the tiles in solved order or in solved
    order with the tiles at positions 0 and 1 exchanged; after any other
    random step the result is not solved. *)
Theorem shuffleTiles_solved_iff (pick : nat → nat) (board : list Tile) :
  ordinals board = seq 0 (length board) →
  1 < length board →
  picksInRange pick (length board) = true →
  ∃ mid result,
    fisherYates pick (length board) board = Some mid
    ∧ shuffleTiles pick board = Some result
    ∧ result ≡ₚ board
    ∧ (boardSolved result = true
       ↔ ordinals mid = seq 0 (length board)
         ∨ ordinals mid = 1 :: 0 :: seq 2 (length board - 2)).
Proof.
  intros Hsolved Hlen Hpick.
  destruct (fisherYates_total pick board Hpick) as (mid & Hmid & Pmid).
  destruct (shuffleTiles_after_random_step _ _ _ Hmid) as [_ Hshuffle].
  destruct (shuffleTiles_total pick board Hpick) as (result & Hres & Pres).
  exists mid, result. split; [done|]. split; [done|]. split; [done|].
  rewrite Hres in Hshuffle. rewrite boardSolved_ordinals.
  rewrite (Permutation_length Pres).
  pose proof (Permutation_length Pmid) as Lmid.
  destruct (Nat.odd (inversionsOf (ordinals mid))) eqn:Hodd.
  - destruct (odd_inversions_two_tiles _ Hodd) as (x & y & rest & ->).
    injection Hshuffle as ->. rewrite <- Lmid in *.
    cbn [ordinals map length seq] in *.
    replace (S (S (length rest)) - 2) with (length rest) by lia.
    split.
    + intros [= -> -> Hrest]. right. by rewrite Hrest.
    + intros [[= Hx Hy Hrest]|[= -> -> Hrest]].
      * rewrite Hx, Hy, Hrest in Hodd.
        change (0 :: 1 :: seq 2 (length rest))
          with (seq 0 (S (S (length rest)))) in Hodd.
        by rewrite inversionsOf_seq in Hodd.
      * by rewrite Hrest.
  - injection Hshuffle as ->. rewrite <- Lmid. split; [by left|].
    intros [H|H]; [done|]. exfalso.
    rewrite H, inversionsOf_first_two_exchanged in Hodd. done.
Qed.

Lemma shuffleTiles_solved_iff_witness :
  ∃ mid result,
    fisherYates (picksOf [0; 1; 2; 0]) 4 board2x2 = Some mid
    ∧ shuffleTiles (picksOf [0; 1; 2; 0]) board2x2 = Some result
    ∧ boardSolved result = false.
Proof.
  destruct (shuffleTiles_solved_iff (picksOf [0; 1; 2; 0]) board2x2)
    as (mid & result & Hmid & Hres & _ & Hiff).
  - reflexivity.
  - simpl. lia.
  - reflexivity.
  - exists mid, result. split; [exact Hmid|]. split; [exact Hres|].
    destruct (boardSolved result); [|reflexivity].
    exfalso. destruct (proj1 Hiff eq_refl) as [H|H];
      vm_compute in Hmid; injection Hmid as <-; discriminate H.
Defined.

(** [swapTiles] on positions of the board: the two tiles change places, the
    page keeps one element per tile, nothing else of [state] changes. *)
Lemma swapTiles_in_range (w : World) indexA indexB :
  indexA < length (tiles (state w)) →
  indexB < length (tiles (state w)) →
  length (puzzleTiles (page w)) = length (tiles (state w)) →
  ∃ swapped w',
    swapAt indexA indexB (tiles (state w)) = Some swapped
    ∧ swapTiles indexA indexB w = Some (tt, w')
    ∧ state w' = set_tiles swapped (state w)
    ∧ length (puzzleTiles (page w')) = length (puzzleTiles (page w)).
Proof.
  intros HA HB Hpage. destruct w as [g p pend ac ps]. simpl in *.
  destruct (swapAt_is_Some indexA indexB (tiles g) HA HB) as [swapped Hs].
  exists swapped. unfold_handlers. simpl. rewrite Hs. simpl.
  destruct (lookup_lt_is_Some_2 (puzzleTiles p) indexA) as [ea ->]; [lia|].
  simpl.
  destruct (lookup_lt_is_Some_2
              (<[indexA := addSwapping ea]> (puzzleTiles p)) indexB)
    as [eb ->]; [rewrite length_insert; lia|].
  simpl. eexists. split; [done|]. split; [done|]. split; [done|].
  simpl. by rewrite !length_insert.
Qed.

(** C2. The board the shuffle returns for tiles in solved order, and the
    board after any sequence of swaps of board positions served by
    [swapTiles], carries every origin ordinal from 0 to the number of tiles
    minus one exactly once. *)
Theorem board_stays_permutation (pick : nat → nat) (board : list Tile)
    (swaps : list (nat * nat)) :
  ordinals board = seq 0 (length board) →
  picksInRange pick (length board) = true →
  Forall (fun ab => ab.1 < length board ∧ ab.2 < length board) swaps →
  ∃ shuffled,
    shuffleTiles pick board = Some shuffled
    ∧ ordinals shuffled ≡ₚ seq 0 (length board)
    ∧ ∀ w : World,
        tiles (state w) = shuffled →
        length (puzzleTiles (page w)) = length shuffled →
        ∃ w', swapMany swaps w = Some (tt, w')
              ∧ ordinals (tiles (state w')) ≡ₚ seq 0 (length board).
Proof.
  intros Hsolved Hpick Hswaps.
  destruct (shuffleTiles_total pick board Hpick) as (shuffled & Hs & Ps).
  exists shuffled. split; [done|].
  assert (Hord : ordinals shuffled ≡ₚ seq 0 (length board))
    by (rewrite <- Hsolved; by apply ordinals_Permutation).
  split; [done|].
  intros w Hw Hpage. rewrite <- Hw in Hord, Hpage.
  assert (Hlen : length (tiles (state w)) = length board)
    by (rewrite Hw; by apply Permutation_length).
  clear Hw Hs Ps Hsolved Hpick.
  revert w Hord Hpage Hlen.
  induction Hswaps as [|[a b] swaps [Ha Hb] _ IH]; intros w Hord Hpage Hlen.
  - exists w. by split.
  - simpl in Ha, Hb.
    destruct (swapTiles_in_range w a b) as (swapped & w1 & Hsw & Hrun & Hst & Hpg);
      [lia..|done|].
    pose proof (swapAt_Permutation _ _ _ _ Hsw) as Psw.
    destruct (IH w1) as (w' & Hrest & Hfinal).
    + rewrite Hst. simpl. by rewrite (ordinals_Permutation _ _ Psw).
    + rewrite Hpg, Hst. simpl. by rewrite (Permutation_length Psw).
    + rewrite Hst. simpl. by rewrite (Permutation_length Psw).
    + exists w'. split; [|done].
      cbn [swapMany]. unfold bind at 1. by rewrite Hrun.
Qed.

Lemma board_stays_permutation_witness :
  ∃ shuffled w',
    shuffleTiles (picksOf [0; 1; 2; 0]) board2x2 = Some shuffled
    ∧ swapMany [(0, 3); (1, 2); (3, 3)] (worldWithBoard shuffled)
      = Some (tt, w')
    ∧ ordinals (tiles (state w')) ≡ₚ seq 0 4.
Proof.
  destruct (board_stays_permutation (picksOf [0; 1; 2; 0]) board2x2
              [(0, 3); (1, 2); (3, 3)])
    as (shuffled & Hs & _ & Hswaps).
  - reflexivity.
  - reflexivity.
  - repeat constructor; simpl; lia.
  - destruct (Hswaps (worldWithBoard shuffled)) as (w' & Hrun & Hperm).
    + reflexivity.
    + simpl. apply length_imap.
    + exists shuffled, w'. split; [exact Hs|]. split; [exact Hrun|exact Hperm].
Defined.

(** C9. In a session reachable on any page layout, with the puzzle
    unsolved and position [p] selected, activating the tile at [p] again
    clears the selection and leaves the board and the solved flag as they
    were. *)
Theorem handleTileClick_deselects (layout : Button → Screen → bool)
    (w : World) (p : nat) :
  reachable layout w →
  isSolved (state w) = false →
  selectedTile (state w) = Some p →
  ∃ w',
    handleTileClick p w = Some (tt, w')
    ∧ selectedTile (state w') = None
    ∧ tiles (state w') = tiles (state w)
    ∧ isSolved (state w') = false.
Proof.
  intros Hreach Hunsolved Hsel.
  destruct (reachable_InvBoard layout w Hreach) as [Hpage Hselected].
  specialize (Hselected p Hsel). rewrite <- Hpage in Hselected.
  destruct (lookup_lt_is_Some_2 _ _ Hselected) as [element Hel].
  destruct w as [g pg pend ac ps]. simpl in *.
  unfold_handlers. simpl. rewrite Hunsolved, Hsel.
  rewrite decide_True by done. simpl. rewrite Hel. simpl.
  eexists. split; [reflexivity|]. simpl. done.
Qed.

Lemma worldAfter_reachable (events : list Event) :
  is_Some (run pageLayout events initialWorld) →
  reachable pageLayout (worldAfter events).
Proof.
  unfold worldAfter. intros [w Hrun]. rewrite Hrun. simpl.
  exact (run_reachable _ _ _ _ (reachable_initial _) Hrun).
Qed.

Lemma handleTileClick_deselects_witness :
  let w := worldAfter (startFirstLevel ++ [TileActivated 2]) in
  selectedTile (state w) = Some 2
  ∧ ∃ w', handleTileClick 2 w = Some (tt, w')
          ∧ selectedTile (state w') = None
          ∧ tiles (state w') = tiles (state w).
Proof.
  split; [reflexivity|].
  destruct (handleTileClick_deselects pageLayout
              (worldAfter (startFirstLevel ++ [TileActivated 2])) 2)
    as (w' & Hclick & Hnone & Hboard & _).
  - apply worldAfter_reachable. vm_compute. eauto.
  - reflexivity.
  - reflexivity.
  - exists w'. split; [exact Hclick|]. split; [exact Hnone|exact Hboard].
Defined.

(** C7. While [isSolved] is true, activating a tile changes nothing at all
    and raises no error, and every event (on any page layout) leaves
    [isSolved] true and the
    board and the selection untouched, except the successful end of a
    [loadLevel] (the image has loaded), which is the one step that sets
    [isSolved] back to false. *)
Theorem solved_until_next_load (layout : Button → Screen → bool)
    (w : World) :
  isSolved (state w) = true →
  (∀ index, handleTileClick index w = Some (tt, w))
  ∧ ∀ e w',
      step layout w e = Some w' →
      (isSolved (state w') = true
       ∧ tiles (state w') = tiles (state w)
       ∧ selectedTile (state w') = selectedTile (state w))
      ∨ (∃ k img pick levelIndex levelData,
           e = ImageSettled k (Some img) pick
           ∧ pending w !! k = Some (AwaitImage levelIndex levelData)
           ∧ isSolved (state w') = false).
Proof.
  intros Hsolved. split.
  { intros index. unfold handleTileClick, bind, getState, ret.
    by rewrite Hsolved. }
  intros e w' (Hen & [] & H)%step_inv.
  destruct w as [g p pend ac ps]. simpl in *.
  destruct e as [b allowed|index|k r|k r|k r pick|k|k allowed]; simpl in Hen.
  - left. destruct b; unfold_handlers; simpl in *; repeat case_match;
      by simplify_eq/=.
  - left. unfold_handlers. simpl in *. rewrite Hsolved in H.
    by simplify_eq/=.
  - left. destruct (pend !! k) as [[]|] eqn:Hk; try done.
    unfold_handlers; simpl in *; rewrite Hk in H; simpl in H.
    repeat case_match; by simplify_eq/=.
  - left. destruct (pend !! k) as [[]|] eqn:Hk; try done.
    unfold_handlers; simpl in *; rewrite Hk in H; simpl in H.
    repeat case_match; by simplify_eq/=.
  - destruct (pend !! k) as [[]|] eqn:Hk; try done.
    unfold_handlers; simpl in *; rewrite Hk in H; simpl in H.
    destruct r as [img|]; simpl in H.
    + right. exists k, img, pick, levelIndex, levelData.
      repeat case_match; by simplify_eq/=.
    + left. by simplify_eq/=.
  - left. destruct (pend !! k) as [[]|] eqn:Hk; try done;
    unfold_handlers; simpl in *; rewrite Hk in H; simpl in H;
    repeat case_match; by simplify_eq/=.
  - left. destruct (pend !! k) as [[]|] eqn:Hk; try done.
    unfold_handlers; simpl in *; rewrite Hk in H; simpl in H.
    repeat case_match; by simplify_eq/=.
Qed.

Lemma solved_until_next_load_witness :
  let w := worldAfter solveFirstLevel in
  isSolved (state w) = true
  ∧ handleTileClick 4 w = Some (tt, w)
  ∧ ∃ w', step pageLayout w (TimerFired 0) = Some w'
          ∧ isSolved (state w') = true
          ∧ tiles (state w') = tiles (state w).
Proof.
  split; [reflexivity|].
  destruct (solved_until_next_load pageLayout (worldAfter solveFirstLevel))
    as [Hclick Hstep]; [reflexivity|].
  split; [exact (Hclick 4)|].
  destruct (step pageLayout (worldAfter solveFirstLevel) (TimerFired 0))
    as [w'|] eqn:E;
    [|vm_compute in E; discriminate E].
  exists w'. split; [reflexivity|].
  destruct (Hstep _ _ E) as [(Hs & Hb & _)|(k & img & pick & i & d & He & _)];
    [split; [exact Hs|exact Hb]|discriminate He].
Defined.

(** C6, as stated, fails: the first level is solved and revealed, Next
    starts the load of the second level, its level data arrive, its image
    fails to load. The error screen is shown with a message, and of the
    session fields the level index, the grid size and the current level are
    those of the second level, while the board is still that of the
    first. *)
Lemma loadLevel_failure_is_partial :
  let before := (solveFirstLevel ++ [TimerFired 0]) in
  let afterLoad :=
    (before ++ [ Click NextBtn;
                 LevelDataFetched 1 (Json secondLevel);
                 ImageSettled 1 None identityPicks ]) in
  is_Some (run pageLayout afterLoad initialWorld)
  ∧ screen (page (worldAfter afterLoad)) = ErrorScreen
  ∧ errorMessage (page (worldAfter afterLoad))
    = "Failed to load level: Failed to load image"
  ∧ currentLevelIndex (state (worldAfter before)) = 0
  ∧ currentLevelIndex (state (worldAfter afterLoad)) = 1
  ∧ gridSize (state (worldAfter before)) = 3
  ∧ gridSize (state (worldAfter afterLoad)) = 4
  ∧ currentLevel (state (worldAfter before)) = Some sampleLevel
  ∧ currentLevel (state (worldAfter afterLoad)) = Some secondLevel
  ∧ tiles (state (worldAfter afterLoad)) = tiles (state (worldAfter before))
  ∧ length (tiles (state (worldAfter afterLoad))) = 9.
Proof.
  cbv zeta. split; [vm_compute; eauto|].
  split_and!; vm_compute; reflexivity.
Qed.

(** C6, amended. A [loadLevel] that fails shows the error screen with the
    message "Failed to load level: " followed by the error's message. Its
    start changes nothing of [state]. If the level data cannot be fetched,
    [state] is as it was before the load. Once the level data have arrived,
    the current level, the level index and the grid size are those of the
    new level; if the image then fails to load, [state] keeps these three
    new values and is otherwise unchanged (board, selection, solved flag,
    image and audio element are the old ones). *)
Theorem loadLevel_failure (layout : Button → Screen → bool) (w : World)
    (k : nat) :
  (∀ levelIndex,
     ∃ w', loadLevel levelIndex w = Some (tt, w')
           ∧ state w' = state w
           ∧ screen (page w') = LoadingScreen)
  ∧ (∀ levelIndex levelName reply message,
       pending w !! k = Some (AwaitLevelData levelIndex levelName) →
       fetchLevelData levelName reply = inl message →
       ∃ w', step layout w (LevelDataFetched k reply) = Some w'
             ∧ state w' = state w
             ∧ screen (page w') = ErrorScreen
             ∧ errorMessage (page w') = "Failed to load level: " +:+ message)
  ∧ (∀ levelIndex levelName levelData,
       pending w !! k = Some (AwaitLevelData levelIndex levelName) →
       ∃ w', step layout w (LevelDataFetched k (Json levelData)) = Some w'
             ∧ state w'
               = set_gridSize (calculateGridSize levelIndex)
                   (set_currentLevelIndex levelIndex
                      (set_currentLevel (Some levelData) (state w)))
             ∧ page w' = page w
             ∧ pending w'
               = delete k (pending w) ++ [AwaitImage levelIndex levelData])
  ∧ (∀ levelIndex levelData pick,
       pending w !! k = Some (AwaitImage levelIndex levelData) →
       ∃ w', step layout w (ImageSettled k None pick) = Some w'
             ∧ state w' = state w
             ∧ screen (page w') = ErrorScreen
             ∧ errorMessage (page w')
               = "Failed to load level: Failed to load image").
Proof.
  destruct w as [g p pend ac ps].
  split; [|split; [|split]].
  - intros levelIndex. unfold_handlers. simpl.
    eexists. split; [reflexivity|]. by split.
  - intros levelIndex levelName reply message Hk Hfail.
    simpl in Hk. unfold step, enabled. simpl. rewrite Hk.
    unfold_handlers. simpl. rewrite Hk. simpl. rewrite Hfail. simpl.
    eexists. split; [reflexivity|]. by repeat split.
  - intros levelIndex levelName levelData Hk.
    simpl in Hk. unfold step, enabled. simpl. rewrite Hk.
    unfold_handlers. simpl. rewrite Hk. simpl.
    eexists. split; [reflexivity|]. by repeat split.
  - intros levelIndex levelData pick Hk.
    simpl in Hk. unfold step, enabled. simpl. rewrite Hk.
    unfold_handlers. simpl. rewrite Hk. simpl.
    eexists. split; [reflexivity|]. by repeat split.
Qed.

Lemma loadLevel_failure_witness :
  let w := worldAfter (solveFirstLevel
                       ++ [TimerFired 0; Click NextBtn;
                           LevelDataFetched 1 (Json secondLevel)]) in
  (∃ w', step pageLayout w (ImageSettled 1 None identityPicks) = Some w'
         ∧ state w' = state w
         ∧ screen (page w') = ErrorScreen)
  ∧ gridSize (state w) = 4.
Proof.
  split; [|reflexivity].
  destruct (loadLevel_failure pageLayout
              (worldAfter (solveFirstLevel
                           ++ [TimerFired 0; Click NextBtn;
                               LevelDataFetched 1 (Json secondLevel)])) 1)
    as (_ & _ & _ & Himage).
  destruct (Himage 1 secondLevel identityPicks) as (w' & Hstep & Hstate & Hscreen & _).
  - reflexivity.
  - exists w'. split; [exact Hstep|]. split; [exact Hstate|exact Hscreen].
Defined.

(** ** Where audio elements are created *)





(** With the invariant, a pending completion timer can expire, and its
    expiry creates the audio element of the current level. *)
Lemma completion_timer_creates_audio layout (w : World) k :
  Inv w →
  pending w !! k = Some CompletionTimer →
  ∃ w' levelData,
    step layout w (TimerFired k) = Some w'
    ∧ currentLevel (state w) = Some levelData
    ∧ audioCreated w' = S (audioCreated w)
    ∧ audioElement (state w')
      = Some (mkAudio (audioCreated w)
                      ("/levels/" +:+ level levelData +:+ "/"
                       +:+ audio levelData)
                      "auto" true)
    ∧ isSolved (state w') = true.
Proof.
  intros [] Hk.
  pose proof (lookup_pending_count isCompletionTimer _ _ _ Hk eq_refl) as Hc.
  destruct (inv_timer0 Hc) as [Hscreen Hsolved].
  destruct (inv_game0 Hscreen) as [img Himg].
  destruct (inv_level0 (or_introl Hscreen)) as [levelData Hlv].
  destruct w as [g p pend ac ps]. simpl in *.
  unfold step, enabled. simpl. rewrite Hk.
  unfold_handlers. simpl. rewrite Hk. simpl. rewrite Himg, Hlv. simpl.
  destruct (audioElement g); simpl; rewrite ?Hlv; simpl;
    (eexists; exists levelData; split; [reflexivity|]; by split_and!).
Qed.







(** * What sessions keep *)

Section AnyLayoutMore.

Variable layout : Button → Screen → bool.

(** The solved flag is only ever set on a solved board. *)
Lemma solved_flag_step (w : World) e w' :
  (isSolved (state w) = true → boardSolved (tiles (state w)) = true) →
  step layout w e = Some w' →
  isSolved (state w') = true → boardSolved (tiles (state w')) = true.
Proof.
  intros IH [_ E]%step_effect. destruct w as [g p pend ac ps].
  effect_cases E; simpl in *; audio_frame; intros;
    repeat case_match; simpl in *;
    first [ done | congruence | (apply IH; congruence) ].
Qed.

(** An error screen always has a message. *)
Lemma error_message_step (w : World) e w' :
  (screen (page w) = ErrorScreen → errorMessage (page w) ≠ "") →
  step layout w e = Some w' →
  screen (page w') = ErrorScreen → errorMessage (page w') ≠ "".
Proof.
  intros IH [_ E]%step_effect. destruct w as [g p pend ac ps].
  effect_cases E; simpl in *; try done; try (by apply IH).
  intros _. by case_decide.
Qed.

(** Once every render timer has expired, the page shows the board. *)
Lemma page_in_sync_step (w : World) e w' :
  (countIf isRenderTimer (pending w) = 0 →
   shownOnPage (page w) = shownBoard (tiles (state w))) →
  step layout w e = Some w' →
  countIf isRenderTimer (pending w') = 0 →
  shownOnPage (page w') = shownBoard (tiles (state w')).
Proof.
  intros IH [_ E]%step_effect. destruct w as [g p pend ac ps].
  effect_cases E; simpl in *; audio_frame;
    rewrite ?countIf_app; simpl; intros Hc; try lia;
    first
      [ exact (shownOnPage_rendered _ _)
      | (rewrite shownOnPage_update by done; apply IH; lia)
      | (repeat case_match; simpl; apply IH;
         first
           [ lia
           | match goal with
             | H : pend !! _ = Some _ |- _ =>
                 rewrite (countIf_delete isRenderTimer _ _ _ H); simpl; lia
             end ]) ].
Qed.

End AnyLayoutMore.

Lemma fetchLevels_nonempty reply l : fetchLevels reply = inr l → l ≠ [].
Proof.
  destruct reply as [m| |[l'|]]; simpl; try done.
  destruct l'; simpl; [done|]. by intros [= <-].
Qed.

Lemma level_button_screen layout b sc :
  levelButtonsAfterList layout = true →
  b ≠ RetryBtn → b ≠ ReplayBtn →
  layout b sc = true →
  sc ≠ LoadingScreen ∧ sc ≠ ErrorScreen.
Proof.
  unfold levelButtonsAfterList. rewrite forallb_forall.
  intros Hall Hb1 Hb2 Hshown.
  assert (Hin : In b [StartBtn; NextBtn; RestartBtn])
    by (destruct b; simpl; tauto).
  apply Hall, andb_true_iff in Hin as [HL%negb_true_iff HE%negb_true_iff].
  split; intros ->; congruence.
Qed.

Lemma Forall_pending_lookup (P : Task → Prop) (pend : list Task) k t :
  Forall P pend → pend !! k = Some t → P t.
Proof. intros HF Hk. by eapply Forall_lookup_1. Qed.

Section LevelButtons.

Variable layout : Button → Screen → bool.
Hypothesis layout_levels : levelButtonsAfterList layout = true.

Lemma InvLevels_initial : InvLevels initialWorld.
Proof.
  split; simpl.
  - intros _. split; [by left|]. split; [|done]. by repeat constructor.
  - by repeat constructor.
Qed.

Lemma InvLevels_step (w : World) e w' :
  InvLevels w → step layout w e = Some w' → InvLevels w'.
Proof.
  intros [Hfresh Hnamed] [Hen E]%step_effect.
  destruct w as [g p pend ac ps]. simpl in *.
  destruct e as [b allowed|index|k r|k r|k r pick|k|k allowed]; simpl in Hen.
  - (* buttons *)
    assert (Hscreen : b ≠ RetryBtn → b ≠ ReplayBtn →
                      levels g ≠ [])
      by (intros Hb1 Hb2 Hl;
          destruct (level_button_screen layout b _ layout_levels Hb1 Hb2 Hen);
          destruct (Hfresh Hl) as [[?|?] _]; done).
    destruct b; effect_cases E; split; simpl; audio_frame;
      try (intros Hl; exfalso; by apply Hscreen);
      try done;
      try (apply Forall_app; split; [done|]; repeat constructor; simpl).
    + destruct (levels g); [exfalso; by apply Hscreen|done].
    + intros Hl. destruct (Hfresh Hl) as (_ & HF & Hlen).
      split; [by left|]. split; [|done].
      apply Forall_app. split; [done|]. by repeat constructor.
    + match goal with H : (_ <=? _) = false |- _ => apply Nat.leb_gt in H end.
      destruct (lookup_lt_is_Some_2 (levels g) (currentLevelIndex g + 1))
        as [name ->]; [lia|done].
    + destruct (levels g); [exfalso; by apply Hscreen|done].
  - (* tiles *)
    apply Nat.ltb_lt in Hen.
    assert (Hl : levels g ≠ [])
      by (intros Hl; destruct (Hfresh Hl) as (_ & _ & Hlen); lia).
    effect_cases E; simpl in *;
      (split; simpl; [done|]);
      rewrite ?Forall_app; repeat split; by repeat constructor.
  - effect_cases E; simpl in *.
    + split; simpl.
      * intros Hl. destruct (Hfresh Hl) as (_ & HF & Hlen).
        split; [by right|]. split; [by apply Forall_delete|done].
      * by apply Forall_delete.
    + split; simpl.
      * intros Hl.
        match goal with
        | H : fetchLevels _ = inr _ |- _ => by apply fetchLevels_nonempty in H
        end.
      * by apply Forall_delete.
  - assert (Hl : levels g ≠ []).
    { intros Hl. destruct (Hfresh Hl) as (_ & HF & _).
      destruct E as (i & name & Hk & _).
      by pose proof (Forall_pending_lookup _ _ _ _ HF Hk). }
    effect_cases E; simpl in *; (split; simpl; [done|]);
      rewrite ?Forall_app; repeat split;
      first [ by apply Forall_delete | by repeat constructor ].
  - assert (Hl : levels g ≠ []).
    { intros Hl. destruct (Hfresh Hl) as (_ & HF & _).
      destruct E as (i & d & Hk & _).
      by pose proof (Forall_pending_lookup _ _ _ _ HF Hk). }
    effect_cases E; simpl in *; (split; simpl; [done|]);
      by apply Forall_delete.
  - assert (Hl : levels g ≠ []).
    { intros Hl. destruct (Hfresh Hl) as (_ & HF & _).
      destruct E as [[Hk _]|[Hk _]];
        by pose proof (Forall_pending_lookup _ _ _ _ HF Hk). }
    effect_cases E; simpl in *; (split; simpl; [done|]);
      rewrite ?Forall_app; repeat split;
      first [ by apply Forall_delete | by repeat constructor ].
  - assert (Hl : levels g ≠ []).
    { intros Hl. destruct (Hfresh Hl) as (_ & HF & _).
      destruct E as (i & Hk & _).
      by pose proof (Forall_pending_lookup _ _ _ _ HF Hk). }
    assert (Hl' : ∀ g', levels g' = levels g → levels g' ≠ [])
      by (by intros g' ->).
    effect_cases E; simpl in *; (split; simpl; [|by apply Forall_delete]);
      intros Hl2; exfalso; revert Hl2; repeat case_match; simpl; done.
Qed.

Lemma reachable_InvLevels (w : World) : reachable layout w → InvLevels w.
Proof.
  induction 1 as [|w e w' _ IH Hstep]; [apply InvLevels_initial|].
  by eapply InvLevels_step.
Qed.

End LevelButtons.

Lemma shuffleTiles_length pick (board shuffled : list Tile) :
  shuffleTiles pick board = Some shuffled → length shuffled = length board.
Proof. intros P%shuffleTiles_Permutation. by apply Permutation_length. Qed.

Section GridOnScreen.

Variable layout : Button → Screen → bool.
Hypothesis layout_ok : loadButtonsHidden layout = true.

Lemma InvGrid_initial : InvGrid initialWorld.
Proof. split; simpl; [intros [|]; [done|lia]|done]. Qed.

Lemma InvGrid_step (w : World) e w' :
  Inv w → InvGrid w → step layout w e = Some w' → InvGrid w'.
Proof.
  intros HI [Hsize Hboard] [Hen E]%step_effect.
  destruct HI as [_ _ _ Htimer _ Hasync _ _ _ _ _].
  destruct w as [g p pend ac ps]. simpl in *.
  destruct e as [b allowed|index|k r|k r|k r pick|k|k allowed]; simpl in Hen.
  - (* buttons: a load button is pressed while no image is awaited *)
    assert (Hidle : b ≠ ReplayBtn → countIf isAwaitImage pend = 0).
    { intros Hb.
      destruct (load_button_screen layout b _ layout_ok Hb Hen) as [_ HL].
      destruct (Nat.eq_dec (countIf isAsync pend) 0) as [Hz|Hnz];
        [|by destruct HL; apply Hasync; lia].
      pose proof (countIf_le isAwaitImage isAsync pend) as Hle.
      assert (countIf isAwaitImage pend ≤ countIf isAsync pend)
        by (apply Hle; by intros []).
      lia. }
    destruct b; effect_cases E; split; simpl; audio_frame;
      rewrite ?countIf_app; simpl;
      try specialize (Hidle ltac:(done));
      first [ done | (intros [|]; [done|lia]) | by apply Hsize | by apply Hboard ].
  - (* tiles *)
    effect_cases E; split; simpl; rewrite ?countIf_app; simpl;
      repeat match goal with
      | H : swapAt _ _ _ = Some _ |- _ => apply swapAt_length in H
      end;
      first [ done
            | (intros [|]; apply Hsize; [by left|right; lia])
            | (intros Hs; rewrite <- (Hboard Hs); congruence) ].
  - pose proof (countIf_delete isAwaitImage pend k) as Hcount.
    effect_cases E; split; simpl; try done;
      specialize (Hcount _ Hk); simpl in Hcount;
      intros [|]; first [ done | (apply Hsize; right; lia) ].
  - destruct E as (i & name & Hk & E).
    pose proof (countIf_delete isAwaitImage pend k _ Hk) as Hcount.
    pose proof (lookup_pending_count isAsync pend k _ Hk eq_refl) as Hc.
    specialize (Hasync Hc). simpl in Hcount.
    destruct (fetchLevelData name r); subst w'; split; simpl;
      rewrite ?countIf_app; simpl; try done;
      first [ (intros [|]; [done|apply Hsize; right; lia])
            | (intros Hs; rewrite Hasync in Hs; done) ].
  - destruct E as (i & d & Hk & E).
    pose proof (countIf_delete isAwaitImage pend k _ Hk) as Hcount.
    pose proof (lookup_pending_count isAwaitImage pend k _ Hk eq_refl) as Hc.
    simpl in Hcount.
    destruct r as [img|].
    + destruct E as (shuffled & Hs & ->). split; simpl.
      * intros _. apply Hsize. by right.
      * intros _. rewrite (shuffleTiles_length _ _ _ Hs).
        apply createTiles_length.
    + subst w'. split; simpl; [|done].
      intros [|]; [done|]. apply Hsize. by right.
  - destruct E as [[Hk ->]|(Hk & img & lv & Himg & Hlv & ->)].
    + pose proof (countIf_delete isAwaitImage pend k _ Hk) as Hcount.
      simpl in Hcount. split; simpl; [|done].
      intros [|]; apply Hsize; [by left|right; lia].
    + pose proof (lookup_pending_count isCompletionTimer pend k _ Hk eq_refl)
        as Hc.
      destruct (Htimer Hc) as [Hscreen _].
      split; simpl; intros _; [apply Hsize|apply Hboard];
        rewrite ?Hscreen; by try left.
  - destruct E as (id & Hk & ->).
    pose proof (countIf_delete isAwaitImage pend k _ Hk) as Hcount.
    simpl in Hcount.
    assert (Hg : ∀ g',
               g' = match audioElement g with
                    | Some a =>
                        if decide (audio_id a = id)
                        then
                          if allowed
                          then set_audioElement (Some (setPaused false a)) g
                          else g
                        else g
                    | None => g
                    end →
               gridSize g' = gridSize g
               ∧ currentLevelIndex g' = currentLevelIndex g
               ∧ tiles g' = tiles g)
      by (intros g' ->; repeat case_match; done).
    destruct (Hg _ eq_refl) as (Hg1 & Hg2 & Hg3).
    split; simpl; rewrite Hg1, ?Hg2, ?Hg3; [|done].
    intros [|]; apply Hsize; [by left|right; lia].
Qed.

Lemma reachable_InvGrid (w : World) : reachable layout w → InvGrid w.
Proof.
  induction 1 as [|w e w' Hw IH Hstep]; [apply InvGrid_initial|].
  eapply InvGrid_step; [|done..]. by apply (reachable_Inv layout).
Qed.

End GridOnScreen.

Lemma taskInList_idle g (pend : list Task) :
  countIf isAsync pend = 0 → Forall (taskInList g) pend.
Proof.
  induction pend as [|t pend IH]; simpl; [by constructor|].
  destruct (isAsync t) eqn:Et; [lia|]. intros Hc.
  constructor; [by destruct t|by apply IH].
Qed.

Lemma taskInList_frame g g' (pend : list Task) :
  levels g' = levels g →
  currentLevelIndex g' = currentLevelIndex g →
  Forall (taskInList g) pend → Forall (taskInList g') pend.
Proof.
  intros Hl Hi HF. eapply Forall_impl; [exact HF|].
  intros []; simpl; rewrite ?Hl, ?Hi; done.
Qed.

Section LevelIndex.

Variable layout : Button → Screen → bool.
Hypothesis layout_ok : loadButtonsHidden layout = true.
Hypothesis layout_levels : levelButtonsAfterList layout = true.

Lemma InvIndex_initial : InvIndex initialWorld.
Proof. split; simpl; [by repeat constructor|done]. Qed.

Lemma InvIndex_step (w : World) e w' :
  Inv w → InvLevels w → InvIndex w → step layout w e = Some w' → InvIndex w'.
Proof.
  intros HI [Hfresh _] [Htasks Hboard] [Hen E]%step_effect.
  destruct HI as [_ _ _ Htimer _ Hasync Hone _ _ _ _].
  destruct w as [g p pend ac ps]. simpl in *.
  destruct e as [b allowed|index|k r|k r|k r pick|k|k allowed]; simpl in Hen.
  - (* buttons *)
    assert (Hidle : b ≠ ReplayBtn → countIf isAsync pend = 0).
    { intros Hb.
      destruct (load_button_screen layout b _ layout_ok Hb Hen) as [_ HL].
      destruct (Nat.eq_dec (countIf isAsync pend) 0) as [Hz|Hnz]; [done|].
      destruct HL. apply Hasync. lia. }
    assert (Hlist : b ≠ RetryBtn → b ≠ ReplayBtn → 0 < length (levels g)).
    { intros Hb1 Hb2.
      destruct (level_button_screen layout b _ layout_levels Hb1 Hb2 Hen)
        as [HL HE].
      destruct (levels g) eqn:Hl; [|simpl; lia].
      by destruct (Hfresh eq_refl) as [[?|?] _]. }
    destruct b; effect_cases E; split; simpl; audio_frame; try done;
      try specialize (Hidle ltac:(done));
      try specialize (Hlist ltac:(done) ltac:(done)).
    + apply Forall_app. split; [done|]. by repeat constructor.
    + apply Forall_app. split; [done|]. by repeat constructor.
    + eapply taskInList_frame; [| |exact Htasks];
        by rewrite ?audioPaused_levels, ?audioPaused_currentLevelIndex.
    + eapply taskInList_frame; [| |exact Htasks];
        by rewrite ?audioPaused_levels, ?audioPaused_currentLevelIndex.
    + match goal with H : (_ <=? _) = false |- _ => apply Nat.leb_gt in H end.
      apply Forall_app. split.
      * eapply taskInList_frame; [| |exact Htasks];
          by rewrite ?audioPaused_levels, ?audioPaused_currentLevelIndex.
      * repeat constructor. simpl. rewrite audioPaused_levels. lia.
    + apply Forall_app. split; [by apply taskInList_idle|].
      by repeat constructor.
  - (* tiles *)
    effect_cases E; split; simpl; try done;
      rewrite ?Forall_app; repeat split;
      first [ by repeat constructor
            | (eapply taskInList_frame; [| |exact Htasks]; done) ].
  - (* the level list arrives *)
    pose proof (countIf_delete isAsync pend k) as Hcount.
    effect_cases E; specialize (Hcount _ Hk); simpl in Hcount;
      split; simpl; try done.
    + by apply Forall_delete.
    + apply taskInList_idle. lia.
  - (* the level data arrive *)
    destruct E as (i & name & Hk & E). simpl in Hk, E.
    pose proof (countIf_delete isAsync pend k _ Hk) as Hcount.
    pose proof (lookup_pending_count isAsync pend k _ Hk eq_refl) as Hc.
    pose proof (Forall_pending_lookup _ _ _ _ Htasks Hk) as Hi.
    specialize (Hasync Hc). simpl in Hcount, Hi.
    destruct (fetchLevelData name r); subst w'; split; simpl; try done.
    + by apply Forall_delete.
    + apply Forall_app. split; [apply taskInList_idle; lia|].
      by repeat constructor.
  - (* the image settles *)
    destruct E as (i & d & Hk & E). simpl in Hk, E.
    pose proof (Forall_pending_lookup _ _ _ _ Htasks Hk) as [Hi Hcur].
    destruct r as [img|].
    + destruct E as (shuffled & Hs & ->). split; simpl.
      * apply Forall_delete.
        eapply taskInList_frame; [| |exact Htasks]; done.
      * intros _. lia.
    + subst w'. split; simpl; [by apply Forall_delete|done].
  - (* timers *)
    destruct E as [[Hk ->]|(Hk & img & lv & Himg & Hlv & ->)].
    + split; simpl; [by apply Forall_delete|done].
    + pose proof (lookup_pending_count isCompletionTimer pend k _ Hk eq_refl)
        as Hc.
      destruct (Htimer Hc) as [Hscreen _].
      split; simpl.
      * apply Forall_app. split; [|by repeat constructor].
        apply Forall_delete.
        eapply taskInList_frame; [| |exact Htasks]; done.
      * intros _. apply Hboard. by rewrite Hscreen.
  - (* the audio element can play *)
    destruct E as (id & Hk & ->).
    assert (Hg : ∀ g',
               g' = match audioElement g with
                    | Some a =>
                        if decide (audio_id a = id)
                        then
                          if allowed
                          then set_audioElement (Some (setPaused false a)) g
                          else g
                        else g
                    | None => g
                    end →
               levels g' = levels g
               ∧ currentLevelIndex g' = currentLevelIndex g)
      by (intros g' ->; repeat case_match; done).
    destruct (Hg _ eq_refl) as (Hg1 & Hg2).
    split; simpl; rewrite ?Hg1, ?Hg2; [|done].
    apply Forall_delete. by eapply taskInList_frame.
Qed.

Lemma reachable_InvIndex (w : World) : reachable layout w → InvIndex w.
Proof.
  induction 1 as [|w e w' Hw IH Hstep]; [apply InvIndex_initial|].
  eapply InvIndex_step; [| |done..].
  - by apply (reachable_Inv layout).
  - by apply (reachable_InvLevels layout).
Qed.

End LevelIndex.

(** * Further properties of the puzzle functions *)

(** Swapping the same two positions again undoes the swap. *)
Lemma swapAt_twice i j (a a' : list Tile) :
  swapAt i j a = Some a' → swapAt i j a' = Some a.
Proof.
  intros Hswap.
  destruct (swapAt_in_range _ _ _ _ Hswap) as [Hi Hj].
  apply swapAt_Some_inv in Hswap as (ai & aj & Hai & Haj & ->).
  unfold swapAt. destruct (decide (i = j)) as [->|Hne].
  - simplify_eq.
    rewrite list_lookup_insert_eq by (by rewrite length_insert).
    cbn [mbind option_bind].
    by rewrite !list_insert_insert_eq, list_insert_id.
  - rewrite list_lookup_insert_eq by (by rewrite length_insert).
    rewrite list_lookup_insert_ne, list_lookup_insert_eq by done.
    cbn [mbind option_bind]. f_equal. apply list_eq. intros k.
    destruct (decide (k = j)) as [->|Hkj].
    + rewrite list_lookup_insert_eq by (by rewrite !length_insert). done.
    + rewrite list_lookup_insert_ne by done.
      destruct (decide (k = i)) as [->|Hki].
      * rewrite list_lookup_insert_eq by (by rewrite !length_insert). done.
      * by rewrite !list_lookup_insert_ne by done.
Qed.

(** The order in which the two positions are named does not matter. *)
Lemma swapAt_symmetric i j (a : list Tile) : swapAt i j a = swapAt j i a.
Proof.
  unfold swapAt.
  destruct (a !! i) as [ai|] eqn:Hi, (a !! j) as [aj|] eqn:Hj;
    cbn [mbind option_bind]; try done.
  f_equal. destruct (decide (i = j)) as [->|Hne].
  - by simplify_eq.
  - by rewrite list_insert_insert_ne by done.
Qed.

(** X1. [swapTiles] on two positions of the board, called a second time
    with the same positions, gives back the board and the whole of [state]
    as they were; and [swapTiles(b, a)] produces the same board as
    [swapTiles(a, b)]. *)
Theorem swapTiles_twice (w : World) (indexA indexB : nat) :
  indexA < length (tiles (state w)) →
  indexB < length (tiles (state w)) →
  length (puzzleTiles (page w)) = length (tiles (state w)) →
  ∃ w1 w2 w1',
    swapTiles indexA indexB w = Some (tt, w1)
    ∧ swapTiles indexA indexB w1 = Some (tt, w2)
    ∧ state w2 = state w
    ∧ swapTiles indexB indexA w = Some (tt, w1')
    ∧ tiles (state w1') = tiles (state w1).
Proof.
  intros HA HB Hpage.
  destruct (swapTiles_in_range w indexA indexB HA HB Hpage)
    as (s1 & w1 & Hs1 & Hrun1 & Hst1 & Hpg1).
  assert (Hlen1 : length (tiles (state w1)) = length (tiles (state w)))
    by (rewrite Hst1; simpl; by eapply swapAt_length).
  destruct (swapTiles_in_range w1 indexA indexB)
    as (s2 & w2 & Hs2 & Hrun2 & Hst2 & _); [lia..|].
  destruct (swapTiles_in_range w indexB indexA HB HA Hpage)
    as (s3 & w3 & Hs3 & Hrun3 & Hst3 & _).
  exists w1, w2, w3. split; [done|]. split; [done|].
  rewrite Hst1 in Hs2. simpl in Hs2.
  rewrite (swapAt_twice _ _ _ _ Hs1) in Hs2. injection Hs2 as <-.
  rewrite swapAt_symmetric, Hs1 in Hs3. injection Hs3 as <-.
  split; [|split; [done|]].
  - rewrite Hst2, Hst1. by destruct (state w).
  - by rewrite Hst3, Hst1.
Qed.

Lemma swapTiles_twice_witness :
  let w := worldAfter startFirstLevel in
  ∃ w1 w2,
    swapTiles 2 7 w = Some (tt, w1)
    ∧ swapTiles 2 7 w1 = Some (tt, w2)
    ∧ tiles (state w1) ≠ tiles (state w)
    ∧ state w2 = state w.
Proof.
  destruct (swapTiles_twice (worldAfter startFirstLevel) 2 7)
    as (w1 & w2 & _ & Hrun1 & Hrun2 & Hback & _).
  - vm_compute. lia.
  - vm_compute. lia.
  - reflexivity.
  - exists w1, w2. split; [exact Hrun1|]. split; [exact Hrun2|].
    split; [|exact Hback].
    vm_compute in Hrun1. injection Hrun1 as <-. vm_compute. discriminate.
Defined.

Lemma createTiles_rows_lookup image n s m row col :
  s ≤ row → row < s + m → col < n →
  flat_map
    (fun row =>
       map (fun col =>
              {| originalIndex := row * n + col;
                 canvas := mkCanvas (img_src image) n row col |})
           (seq 0 n))
    (seq s m)
  !! ((row - s) * n + col)
  = Some (mkTile (row * n + col) (mkCanvas (img_src image) n row col)).
Proof.
  revert s. induction m as [|m IH]; intros s Hs Hrow Hcol; [lia|].
  cbn [seq flat_map].
  destruct (decide (row = s)) as [->|Hne].
  - replace ((s - s) * n + col) with col by lia.
    rewrite lookup_app_l by (by rewrite length_map, length_seq).
    change (map ?f ?l) with (f <$> l).
    by rewrite list_lookup_fmap, lookup_seq_lt.
  - rewrite lookup_app_r by (rewrite length_map, length_seq; nia).
    rewrite length_map, length_seq.
    replace ((row - s) * n + col - n) with ((row - S s) * n + col) by nia.
    apply IH; lia.
Qed.

(** X2. [createTiles] cuts the image into [gridSize] times [gridSize]
    tiles in solved order, row by row: the tile at position
    [row * gridSize + col] has that position as its origin ordinal and
    carries the cell ([row], [col]) of the image. For grid size 0 the board
    is empty. *)
Theorem createTiles_row_major (image : Image) (n : nat) :
  length (createTiles image n) = n * n
  ∧ boardSolved (createTiles image n) = true
  ∧ createTiles image 0 = []
  ∧ ∀ row col,
      row < n → col < n →
      createTiles image n !! (row * n + col)
      = Some (mkTile (row * n + col) (mkCanvas (img_src image) n row col)).
Proof.
  split; [apply createTiles_length|]. split.
  { apply boardSolved_ordinals.
    by rewrite createTiles_ordinals, createTiles_length. }
  split; [done|].
  intros row col Hrow Hcol. unfold createTiles.
  rewrite <- (createTiles_rows_lookup image n 0 n row col) by lia.
  f_equal. lia.
Qed.

Lemma createTiles_row_major_witness :
  createTiles sampleImage 3 !! 7
  = Some (mkTile 7 (mkCanvas (img_src sampleImage) 3 2 1)).
Proof.
  destruct (createTiles_row_major sampleImage 3) as (_ & _ & _ & Hcell).
  apply (Hcell 2 1); lia.
Defined.

Lemma forallb_correct_rendered k (board : list Tile) :
  forallb te_correct
    (imap (fun currentIndex tile =>
             {| te_canvas := canvas tile;
                te_correct := originalIndex tile =? k + currentIndex;
                te_selected := false;
                te_swapping := false |})
          board)
  = everyFrom inPlace k board.
Proof.
  revert k. induction board as [|t board IH]; intros k; [done|].
  rewrite imap_cons. cbn [forallb everyFrom te_correct]. unfold inPlace at 1.
  rewrite Nat.add_0_r.
  destruct (originalIndex t =? k); [|done]. cbn [andb].
  rewrite <- (IH (S k)). f_equal. apply imap_ext. intros i x _. simpl.
  by rewrite Nat.add_succ_r.
Qed.

(** X3. [renderPuzzle] leaves [state] and the pending tasks alone and
    rebuilds the page from the board: one element per tile with the tile's
    canvas, marked [correct] exactly when the tile sits at its own
    position, none selected or swapping, the container unlocked; all
    elements are marked [correct] exactly when the board is solved. *)
Theorem renderPuzzle_marks_placed_tiles (w : World) :
  ∃ w',
    renderPuzzle w = Some (tt, w')
    ∧ state w' = state w
    ∧ pending w' = pending w
    ∧ shownOnPage (page w') = shownBoard (tiles (state w))
    ∧ length (puzzleTiles (page w')) = length (tiles (state w))
    ∧ Forall (fun element => te_selected element = false
                             ∧ te_swapping element = false)
             (puzzleTiles (page w'))
    ∧ locked (page w') = false
    ∧ forallb te_correct (puzzleTiles (page w'))
      = boardSolved (tiles (state w)).
Proof.
  destruct w as [g p pend ac ps]. unfold_handlers. simpl.
  eexists. split; [reflexivity|]. simpl.
  split; [done|]. split; [done|].
  split; [exact (shownOnPage_rendered (tiles g) p)|].
  split; [apply length_imap|].
  split.
  { apply Forall_forall. intros el Hel.
    apply list_elem_of_lookup in Hel as [i Hi].
    rewrite list_lookup_imap in Hi.
    destruct (tiles g !! i); simpl in Hi; [|done]. by injection Hi as <-. }
  split; [done|].
  exact (forallb_correct_rendered 0 (tiles g)).
Qed.

(** X4. [nextLevel] never asks for a level outside the list: when the
    current level is the last one, or the list is empty, it shows the final
    screen and starts nothing; otherwise it shows the loading screen and
    starts the load of the next index, whose name the list has. [state] is
    unchanged either way. *)
Theorem nextLevel_stays_in_list (w : World) :
  ∃ w',
    nextLevel w = Some (tt, w')
    ∧ state w' = state w
    ∧ if decide (currentLevelIndex (state w) + 1 < length (levels (state w)))
      then
        screen (page w') = LoadingScreen
        ∧ ∃ levelName,
            levels (state w) !! (currentLevelIndex (state w) + 1)
            = Some levelName
            ∧ pending w'
              = pending w
                ++ [AwaitLevelData (currentLevelIndex (state w) + 1)
                                   (Some levelName)]
      else
        screen (page w') = FinalScreen ∧ pending w' = pending w.
Proof.
  destruct w as [g p pend ac ps]. unfold_handlers. simpl.
  destruct (Nat.leb_spec (length (levels g) - 1) (currentLevelIndex g)).
  - eexists. split; [reflexivity|]. split; [done|].
    rewrite decide_False by lia. done.
  - eexists. split; [reflexivity|]. split; [done|].
    rewrite decide_True by lia. split; [done|].
    destruct (lookup_lt_is_Some_2 (levels g) (currentLevelIndex g + 1))
      as [name Hname]; [lia|].
    exists name. simpl. by rewrite Hname.
Qed.

(** * Further properties of the session *)

(** X5. On a layout that shows Start, Next and Restart neither on the
    loading screen nor on the error screen, every load that is waiting for
    its level data asked for a name that the level list had (the client
    never fetches [/api/levels/undefined]), and any other screen than these
    two is shown only with a level list that is not empty. *)
Theorem loads_ask_for_listed_levels (layout : Button → Screen → bool)
    (w : World) :
  levelButtonsAfterList layout = true →
  reachable layout w →
  (∀ k levelIndex levelName,
     pending w !! k = Some (AwaitLevelData levelIndex levelName) →
     is_Some levelName)
  ∧ (screen (page w) ≠ LoadingScreen →
     screen (page w) ≠ ErrorScreen →
     levels (state w) ≠ []).
Proof.
  intros Hlayout Hreach.
  destruct (reachable_InvLevels layout Hlayout w Hreach) as [Hfresh Hnamed].
  split.
  - intros k i name Hk.
    pose proof (Forall_pending_lookup _ _ _ _ Hnamed Hk) as Hn.
    destruct name; [eauto|done].
  - intros HL HE Hl. by destruct (Hfresh Hl) as [[?|?] _].
Qed.

Lemma loads_ask_for_listed_levels_witness :
  let w := worldAfter [ LevelsFetched 0 (Json (Some ["level_1"; "level_2"]));
                        Click StartBtn ] in
  pending w = [AwaitLevelData 0 (Some "level_1")]
  ∧ (∀ k levelIndex levelName,
       pending w !! k = Some (AwaitLevelData levelIndex levelName) →
       is_Some levelName)
  ∧ (screen (page w) ≠ LoadingScreen →
     screen (page w) ≠ ErrorScreen →
     levels (state w) ≠ []).
Proof.
  split; [reflexivity|].
  apply (loads_ask_for_listed_levels pageLayout); [reflexivity|].
  apply worldAfter_reachable. vm_compute. eauto.
Defined.

(** X6. A second pick on an unsolved board, at another position than the
    selected one, exchanges the two tiles and clears the selection; the
    solved flag becomes the result of the solved check on the new board; a
    render timer is started, and exactly when the new board is solved also
    the completion timer, with one more solved puzzle counted. No audio
    element is created by the click. *)
Theorem handleTileClick_second_pick (w : World) (selected index : nat) :
  isSolved (state w) = false →
  selectedTile (state w) = Some selected →
  selected ≠ index →
  selected < length (tiles (state w)) →
  index < length (tiles (state w)) →
  length (puzzleTiles (page w)) = length (tiles (state w)) →
  ∃ swapped w',
    swapAt selected index (tiles (state w)) = Some swapped
    ∧ handleTileClick index w = Some (tt, w')
    ∧ tiles (state w') = swapped
    ∧ selectedTile (state w') = None
    ∧ isSolved (state w') = boardSolved swapped
    ∧ pending w'
      = pending w
        ++ RenderTimer :: (if boardSolved swapped then [CompletionTimer]
                           else [])
    ∧ puzzlesSolved w'
      = puzzlesSolved w + (if boardSolved swapped then 1 else 0)
    ∧ audioCreated w' = audioCreated w
    ∧ audioElement (state w') = audioElement (state w).
Proof.
  destruct w as [g p pend ac ps]. simpl.
  intros Hs Hsel Hne Ha Hb Hlen.
  destruct (swapAt_is_Some selected index (tiles g)) as [swapped Hsw];
    [done..|].
  destruct (lookup_lt_is_Some_2 (puzzleTiles p) selected) as [ea Hea]; [lia|].
  destruct (lookup_lt_is_Some_2 (puzzleTiles p) index) as [eb Heb]; [lia|].
  exists swapped. unfold_handlers. simpl. rewrite Hs, Hsel.
  rewrite decide_False by done. simpl. rewrite Hsw. simpl. rewrite Hea. simpl.
  rewrite list_lookup_insert_ne, Heb by done. simpl.
  rewrite list_lookup_insert_ne by done.
  rewrite list_lookup_insert_eq by (by apply lookup_lt_Some in Hea).
  simpl.
  destruct (boardSolved swapped) eqn:Hb'; simpl;
    eexists; (split; [done|]); (split; [reflexivity|]); simpl;
    rewrite <- ?app_assoc, ?Nat.add_0_r, ?Nat.add_1_r; done.
Qed.

Lemma handleTileClick_second_pick_witness :
  let w := worldAfter (startFirstLevel ++ [TileActivated 0]) in
  selectedTile (state w) = Some 0
  ∧ ∃ swapped w',
      swapAt 0 1 (tiles (state w)) = Some swapped
      ∧ handleTileClick 1 w = Some (tt, w')
      ∧ tiles (state w') = swapped
      ∧ selectedTile (state w') = None
      ∧ isSolved (state w') = boardSolved swapped
      ∧ pending w'
        = pending w
          ++ RenderTimer :: (if boardSolved swapped then [CompletionTimer]
                             else [])
      ∧ puzzlesSolved w'
        = puzzlesSolved w + (if boardSolved swapped then 1 else 0)
      ∧ audioCreated w' = audioCreated w
      ∧ audioElement (state w') = audioElement (state w).
Proof.
  split; [reflexivity|].
  apply (handleTileClick_second_pick
           (worldAfter (startFirstLevel ++ [TileActivated 0])) 0 1);
    vm_compute; first [ reflexivity | lia | discriminate ].
Defined.

(** X7. In every session, whatever the page layout: the page has one
    tile element per tile of the board, a selected position is a position
    of the board, and the origin ordinals of the board are the numbers
    below its length, each once. *)
Theorem session_board_wellformed (layout : Button → Screen → bool)
    (w : World) :
  reachable layout w →
  length (puzzleTiles (page w)) = length (tiles (state w))
  ∧ (∀ position, selectedTile (state w) = Some position →
                 position < length (tiles (state w)))
  ∧ ordinals (tiles (state w)) ≡ₚ seq 0 (length (tiles (state w))).
Proof.
  intros Hreach. by destruct (reachable_InvBoard layout w Hreach).
Qed.

Lemma session_board_wellformed_witness :
  let w := worldAfter (startFirstLevel ++ [TileActivated 0; TileActivated 1;
                                           TileActivated 4]) in
  length (puzzleTiles (page w)) = length (tiles (state w))
  ∧ (∀ position, selectedTile (state w) = Some position →
                 position < length (tiles (state w)))
  ∧ ordinals (tiles (state w)) ≡ₚ seq 0 (length (tiles (state w))).
Proof.
  apply (session_board_wellformed pageLayout).
  apply worldAfter_reachable. vm_compute. eauto.
Defined.

(** X8. In every session, whatever the page layout, the solved flag is
    sound: while [state.isSolved] is set, every tile of the board is at its
    own position. *)
Theorem solved_flag_sound (layout : Button → Screen → bool) (w : World) :
  reachable layout w →
  isSolved (state w) = true →
  ∀ position tile,
    tiles (state w) !! position = Some tile → originalIndex tile = position.
Proof.
  intros Hreach Hs. apply boardSolved_lookup. revert Hs.
  induction Hreach as [|w e w' _ IH Hstep]; [done|].
  by eapply solved_flag_step.
Qed.

Lemma solved_flag_sound_witness :
  let w := worldAfter solveFirstLevel in
  isSolved (state w) = true
  ∧ ∀ position tile,
      tiles (state w) !! position = Some tile → originalIndex tile = position.
Proof.
  split; [reflexivity|].
  apply (solved_flag_sound pageLayout).
  - apply worldAfter_reachable. vm_compute. eauto.
  - reflexivity.
Defined.

(** X9. In every session, whatever the page layout, the error screen is
    never shown without a message: [showError] is its only entry, and every
    caller passes the text of the failure or a fixed text when that is
    empty. *)
Theorem error_screen_has_message (layout : Button → Screen → bool)
    (w : World) :
  reachable layout w →
  screen (page w) = ErrorScreen →
  errorMessage (page w) ≠ "".
Proof.
  induction 1 as [|w e w' _ IH Hstep]; [done|].
  by eapply error_message_step.
Qed.

Lemma error_screen_has_message_witness :
  let w := worldAfter [LevelsFetched 0 (Rejected "")] in
  screen (page w) = ErrorScreen ∧ errorMessage (page w) ≠ "".
Proof.
  split; [reflexivity|].
  apply (error_screen_has_message pageLayout).
  - apply worldAfter_reachable. vm_compute. eauto.
  - reflexivity.
Defined.

(** X10. In every session, whatever the page layout, once no render timer
    is pending the page shows the board: element by element the canvas of
    the tile at that position and the [correct] mark exactly on the tiles
    that are in place. *)
Theorem page_shows_board (layout : Button → Screen → bool) (w : World) :
  reachable layout w →
  countIf isRenderTimer (pending w) = 0 →
  shownOnPage (page w) = shownBoard (tiles (state w)).
Proof.
  induction 1 as [|w e w' _ IH Hstep]; [done|].
  by eapply page_in_sync_step.
Qed.

Lemma page_shows_board_witness :
  let w := worldAfter (startFirstLevel
                       ++ [TileActivated 0; TileActivated 5; TimerFired 0]) in
  countIf isRenderTimer (pending w) = 0
  ∧ shownOnPage (page w) = shownBoard (tiles (state w)).
Proof.
  split; [reflexivity|].
  apply (page_shows_board pageLayout).
  - apply worldAfter_reachable. vm_compute. eauto.
  - reflexivity.
Defined.

(** X11. On a layout that hides the load buttons on the game and loading
    screens, whenever the game screen or the completion screen is shown the
    grid size is the one of the current level, the smaller of
    [3 + currentLevelIndex] and [6], and the board has [gridSize] times
    [gridSize] tiles. *)
Theorem board_matches_level (layout : Button → Screen → bool) (w : World) :
  loadButtonsHidden layout = true →
  reachable layout w →
  onBoardScreen (screen (page w)) = true →
  gridSize (state w) = Nat.min (3 + currentLevelIndex (state w)) 6
  ∧ length (tiles (state w)) = gridSize (state w) * gridSize (state w).
Proof.
  intros Hlayout Hreach Hscreen.
  destruct (reachable_InvGrid layout Hlayout w Hreach) as [Hsize Hboard].
  split; [|by apply Hboard].
  rewrite Hsize by (by left). unfold calculateGridSize, baseSize, maxSize.
  done.
Qed.

Lemma board_matches_level_witness :
  let w := worldAfter startFirstLevel in
  screen (page w) = GameScreen
  ∧ gridSize (state w) = Nat.min (3 + currentLevelIndex (state w)) 6
  ∧ length (tiles (state w)) = gridSize (state w) * gridSize (state w).
Proof.
  split; [reflexivity|].
  apply (board_matches_level pageLayout).
  - reflexivity.
  - apply worldAfter_reachable. vm_compute. eauto.
  - reflexivity.
Defined.

(** X12. On a layout that hides the load buttons on the game and loading
    screens, no event a session accepts makes its handler stop at a fault
    (an index outside the board or the page, a missing current level, a
    missing image): every enabled event has a next state. *)
Theorem handlers_never_fault (layout : Button → Screen → bool) (w : World)
    (e : Event) :
  loadButtonsHidden layout = true →
  reachable layout w →
  enabled layout e w = true →
  ∃ w', step layout w e = Some w'.
Proof.
  intros Hlayout Hreach Hen.
  apply (step_total layout); [|done]. by apply (reachable_Inv layout).
Qed.

Lemma handlers_never_fault_witness :
  ∃ w', step pageLayout (worldAfter solveFirstLevel) (TimerFired 0) = Some w'.
Proof.
  apply (handlers_never_fault pageLayout).
  - reflexivity.
  - apply worldAfter_reachable. vm_compute. eauto.
  - reflexivity.
Defined.

(** X13. On a layout that hides the load buttons on the game and loading
    screens, when the completion timer expires the completion screen is
    shown and the audio element is created from the current level: its
    source is [/levels/<level>/<audio>], it is preloaded and not yet
    playing. When its [canplaythrough] event arrives, the listener runs
    without error either way: if the browser accepts [audio.play()] the
    element plays, and if it refuses (auto-play prevented) the element
    stays paused and [state] is unchanged, so that only Replay can start
    it. *)
Theorem completion_audio_of_current_level (layout : Button → Screen → bool)
    (w : World) (k : nat) :
  loadButtonsHidden layout = true →
  reachable layout w →
  pending w !! k = Some CompletionTimer →
  ∃ w' levelData,
    step layout w (TimerFired k) = Some w'
    ∧ currentLevel (state w) = Some levelData
    ∧ audioElement (state w')
      = Some (mkAudio (audioCreated w)
                      ("/levels/" +:+ level levelData +:+ "/"
                       +:+ audio levelData)
                      "auto" true)
    ∧ screen (page w') = CompletionScreen
    ∧ ∀ k' playAllowed,
        pending w' !! k' = Some (CanPlayThrough (audioCreated w)) →
        ∃ w'',
          step layout w' (CanPlayThroughFired k' playAllowed) = Some w''
          ∧ page w'' = page w'
          ∧ pending w'' = delete k' (pending w')
          ∧ if playAllowed
            then
              audioElement (state w'')
              = Some (mkAudio (audioCreated w)
                              ("/levels/" +:+ level levelData +:+ "/"
                               +:+ audio levelData)
                              "auto" false)
            else state w'' = state w'.
Proof.
  intros Hlayout Hreach Hk.
  pose proof (reachable_Inv layout Hlayout w Hreach) as HI.
  destruct (completion_timer_creates_audio layout w k HI Hk)
    as (w' & levelData & Hstep & Hlevel & _ & Haudio & _).
  exists w', levelData. split_and!; try done.
  - apply step_effect in Hstep as [_ E]. destruct w as [g p pend ac ps].
    simpl in Hk. effect_cases E; simpl in *; congruence.
  - intros k' playAllowed Hk'. unfold step. simpl. rewrite Hk'.
    unfold_handlers. simpl. rewrite Hk'. simpl. rewrite Haudio. simpl.
    rewrite decide_True by done.
    destruct playAllowed; simpl; eexists; (split; [reflexivity|]); simpl;
      by split_and!.
Qed.

Lemma completion_audio_of_current_level_witness :
  let w := worldAfter solveFirstLevel in
  ∃ w' levelData,
    step pageLayout w (TimerFired 0) = Some w'
    ∧ currentLevel (state w) = Some levelData
    ∧ audioElement (state w')
      = Some (mkAudio (audioCreated w)
                      ("/levels/" +:+ level levelData +:+ "/"
                       +:+ audio levelData)
                      "auto" true)
    ∧ screen (page w') = CompletionScreen
    ∧ ∀ k' playAllowed,
        pending w' !! k' = Some (CanPlayThrough (audioCreated w)) →
        ∃ w'',
          step pageLayout w' (CanPlayThroughFired k' playAllowed) = Some w''
          ∧ page w'' = page w'
          ∧ pending w'' = delete k' (pending w')
          ∧ if playAllowed
            then
              audioElement (state w'')
              = Some (mkAudio (audioCreated w)
                              ("/levels/" +:+ level levelData +:+ "/"
                               +:+ audio levelData)
                              "auto" false)
            else state w'' = state w'.
Proof.
  apply (completion_audio_of_current_level pageLayout).
  - reflexivity.
  - apply worldAfter_reachable. vm_compute. eauto.
  - reflexivity.
Defined.

(** X14. On a layout that hides the load buttons on the game and loading
    screens and shows Start, Next and Restart only after the level list has
    arrived, the current level index is an index of the level list whenever
    the game screen or the completion screen is shown. *)
Theorem level_index_in_list (layout : Button → Screen → bool) (w : World) :
  loadButtonsHidden layout = true →
  levelButtonsAfterList layout = true →
  reachable layout w →
  onBoardScreen (screen (page w)) = true →
  currentLevelIndex (state w) < length (levels (state w)).
Proof.
  intros Hlayout Hlevels Hreach.
  by destruct (reachable_InvIndex layout Hlayout Hlevels w Hreach).
Qed.

Lemma level_index_in_list_witness :
  let w := worldAfter (solveFirstLevel ++ [TimerFired 0]) in
  screen (page w) = CompletionScreen
  ∧ currentLevelIndex (state w) < length (levels (state w)).
Proof.
  split; [reflexivity|].
  apply (level_index_in_list pageLayout).
  - reflexivity.
  - reflexivity.
  - apply worldAfter_reachable. vm_compute. eauto.
  - reflexivity.
Defined.

(** X15. When the image of a load arrives and the draws are in range, the
    load completes: the board is the shuffle of the tiles cut from that
    image at the stored grid size, the selection is empty, the solved flag
    is off, the image is stored and the audio element is dropped, while the
    level list, the level index, the level data and the grid size stay; the
    page shows the game screen with the new board, unlocked, and the hint
    to tap two tiles. No audio element is created. *)
Theorem loadLevel_completes (layout : Button → Screen → bool) (w : World)
    (k levelIndex : nat) (levelData : LevelData) (img : Image)
    (pick : nat → nat) :
  pending w !! k = Some (AwaitImage levelIndex levelData) →
  picksInRange pick (gridSize (state w) * gridSize (state w)) = true →
  ∃ shuffled w',
    step layout w (ImageSettled k (Some img) pick) = Some w'
    ∧ shuffleTiles pick (createTiles img (gridSize (state w))) = Some shuffled
    ∧ shuffled ≡ₚ createTiles img (gridSize (state w))
    ∧ state w'
      = mkGame (levels (state w)) (currentLevelIndex (state w))
               (currentLevel (state w)) (gridSize (state w)) shuffled None
               false (Some img) None
    ∧ screen (page w') = GameScreen
    ∧ hintText (page w') = "Tap two tiles to swap them"
    ∧ shownOnPage (page w') = shownBoard shuffled
    ∧ locked (page w') = false
    ∧ pending w' = delete k (pending w)
    ∧ audioCreated w' = audioCreated w.
Proof.
  intros Hk Hpick.
  destruct (shuffleTiles_total pick (createTiles img (gridSize (state w))))
    as (shuffled & Hshuffled & Hperm).
  { by rewrite createTiles_length. }
  exists shuffled.
  destruct w as [[lv ix cur size board sel solved image element] p pend ac ps].
  simpl in *.
  unfold step, enabled. simpl. rewrite Hk, Hpick.
  unfold_handlers. simpl. rewrite Hk. simpl. rewrite Hshuffled. simpl.
  destruct element; simpl;
    (eexists; split; [reflexivity|]); simpl;
    (split_and!; try done; exact (shownOnPage_rendered shuffled _)).
Qed.

Lemma loadLevel_completes_witness :
  let w := worldAfter [ LevelsFetched 0 (Json (Some ["level_1"; "level_2"]));
                        Click StartBtn;
                        LevelDataFetched 0 (Json sampleLevel) ] in
  ∃ shuffled w',
    step pageLayout w (ImageSettled 0 (Some sampleImage) identityPicks)
    = Some w'
    ∧ shuffleTiles identityPicks (createTiles sampleImage (gridSize (state w)))
      = Some shuffled
    ∧ shuffled ≡ₚ createTiles sampleImage (gridSize (state w))
    ∧ state w'
      = mkGame (levels (state w)) (currentLevelIndex (state w))
               (currentLevel (state w)) (gridSize (state w)) shuffled None
               false (Some sampleImage) None
    ∧ screen (page w') = GameScreen
    ∧ hintText (page w') = "Tap two tiles to swap them"
    ∧ shownOnPage (page w') = shownBoard shuffled
    ∧ locked (page w') = false
    ∧ pending w' = delete 0 (pending w)
    ∧ audioCreated w' = audioCreated w.
Proof.
  apply (loadLevel_completes pageLayout _ 0 0 sampleLevel); reflexivity.
Defined.

(** * The server *)

Lemma hasExtension_spec extensions f :
  hasExtension extensions f = true
  ↔ ∃ ext, ext ∈ extensions
           ∧ String.list_ascii_of_string ("." +:+ ext) `suffix_of` lowerChars f.
Proof.
  unfold hasExtension. rewrite existsb_exists. split.
  - intros (ext & Hin & H). exists ext.
    split; [by apply list_elem_of_In|]. by apply bool_decide_eq_true in H.
  - intros (ext & Hin & H). exists ext.
    split; [by apply list_elem_of_In|]. by apply bool_decide_eq_true.
Qed.

(** No file name has an image extension and an audio extension. *)
Lemma image_not_audio f : isImageFile f = true → isAudioFile f = false.
Proof.
  intros (e1 & H1 & S1)%hasExtension_spec.
  destruct (isAudioFile f) eqn:E; [|done]. exfalso.
  apply hasExtension_spec in E as (e2 & H2 & S2).
  unfold imageExtensions in H1. unfold audioExtensions in H2.
  destruct (suffix_weak_total _ _ _ S1 S2) as [H|H];
    pose proof (bool_decide_eq_true_2 _ H) as Hb; clear H S1 S2;
    repeat (apply elem_of_cons in H1 as [->|H1]);
    try (by apply elem_of_nil in H1);
    repeat (apply elem_of_cons in H2 as [->|H2]);
    try (by apply elem_of_nil in H2);
    vm_compute in Hb; discriminate.
Qed.

Lemma existsb_elem_of {A} (p : A → bool) l :
  existsb p l = true ↔ ∃ x, x ∈ l ∧ p x = true.
Proof.
  rewrite existsb_exists. by setoid_rewrite list_elem_of_In.
Qed.

(** [find] gives the first element that passes the test. *)
Lemma find_first {A} (p : A → bool) l x :
  find p l = Some x
  ↔ ∃ i, l !! i = Some x ∧ p x = true
         ∧ ∀ j y, j < i → l !! j = Some y → p y = false.
Proof.
  induction l as [|a l IH]; simpl.
  - split; [done|]. by intros (i & ? & _).
  - destruct (p a) eqn:Ea.
    + split.
      * intros [= <-]. exists 0. split_and!; [done..|]. intros; lia.
      * intros ([|i] & Hi & Hx & Hfirst).
        -- simpl in Hi. by injection Hi as <-.
        -- specialize (Hfirst 0 a ltac:(lia) eq_refl). congruence.
    + rewrite IH. split.
      * intros (i & Hi & Hx & Hfirst). exists (S i). split_and!; [done..|].
        intros [|j] y Hj Hy; simpl in Hy; [congruence|].
        apply (Hfirst j); [lia|done].
      * intros ([|i] & Hi & Hx & Hfirst).
        -- simpl in Hi. congruence.
        -- exists i. split_and!; [done..|]. intros j y Hj Hy.
           apply (Hfirst (S j)); [lia|done].
Qed.

Lemma find_is_Some {A} (p : A → bool) l :
  is_Some (find p l) ↔ existsb p l = true.
Proof.
  induction l as [|a l IH]; simpl.
  - split; [by intros [? ?]|done].
  - destruct (p a); simpl; [|done]. split; eauto.
Qed.

Lemma validLevelFolder_true item node :
  validLevelFolder item node = Some true
  ↔ String.prefix "level_" item = true
    ∧ ∃ files, node = Folder (Some files)
               ∧ existsb isImageFile files = true
               ∧ existsb isAudioFile files = true.
Proof.
  unfold validLevelFolder. destruct node as [| |[files|]]; simpl.
  - split; [done|]. by intros (_ & ? & ? & _).
  - split; [done|]. by intros (_ & ? & ? & _).
  - destruct (String.prefix "level_" item); simpl.
    + split.
      * intros [= [? ?]%andb_true_iff]. eauto.
      * intros (_ & ? & [= <-] & -> & ->). done.
    + split; [done|]. by intros [? _].
  - destruct (String.prefix "level_" item); simpl.
    + split; [done|]. by intros (_ & ? & ? & _).
    + split; [done|]. by intros [? _].
Qed.

Lemma validLevelFolder_None item node :
  validLevelFolder item node = None
  ↔ node = Missing
    ∨ (node = Folder None ∧ String.prefix "level_" item = true).
Proof.
  unfold validLevelFolder. destruct node as [| |[files|]]; simpl.
  - split; [by left|done].
  - split; [done|]. by intros [?|[? _]].
  - destruct (String.prefix "level_" item); simpl;
      (split; [done|]); by intros [?|[? _]].
  - destruct (String.prefix "level_" item); simpl.
    + split; [by right|done].
    + split; [done|]. by intros [?|[_ ?]].
Qed.

Lemma filterLevelFolders_elem_of items kept name :
  filterLevelFolders items = Some kept →
  name ∈ kept
  ↔ ∃ node, (name, node) ∈ items ∧ validLevelFolder name node = Some true.
Proof.
  revert kept. induction items as [|[item node] items IH]; intros kept; simpl.
  - intros [= <-]. split; [by intros ?%elem_of_nil|].
    by intros (? & ?%elem_of_nil & _).
  - destruct (validLevelFolder item node) as [keep|] eqn:Ev; [|done].
    destruct (filterLevelFolders items) as [rest|]; [|done].
    intros [= <-]. specialize (IH rest eq_refl).
    destruct keep.
    + rewrite elem_of_cons, IH. split.
      * intros [->|(n & Hin & Hv)].
        -- exists node. split; [left|done].
        -- exists n. split; [by right|done].
      * intros (n & [[= -> ->]|Hin]%elem_of_cons & Hv); [by left|].
        right. eauto.
    + rewrite IH. split.
      * intros (n & Hin & Hv). exists n. split; [by right|done].
      * intros (n & [[= -> ->]|Hin]%elem_of_cons & Hv); [congruence|].
        eauto.
Qed.

Lemma filterLevelFolders_sublist items kept :
  filterLevelFolders items = Some kept → kept `sublist_of` items.*1.
Proof.
  revert kept. induction items as [|[item node] items IH]; intros kept; simpl.
  - by intros [= <-].
  - destruct (validLevelFolder item node) as [keep|]; [|done].
    destruct (filterLevelFolders items) as [rest|]; [|done].
    intros [= <-]. specialize (IH rest eq_refl).
    destruct keep; by constructor.
Qed.

Lemma filterLevelFolders_is_Some items :
  is_Some (filterLevelFolders items)
  ↔ ∀ item node, (item, node) ∈ items →
                 is_Some (validLevelFolder item node).
Proof.
  induction items as [|[item node] items IH]; simpl.
  - split; [|eauto]. by intros _ ? ? ?%elem_of_nil.
  - split.
    + intros [kept H].
      destruct (validLevelFolder item node) as [keep|] eqn:Ev; [|done].
      destruct (filterLevelFolders items) as [rest|]; [|done].
      intros i n [[= -> ->]|Hin]%elem_of_cons; [eauto|].
      apply IH; eauto.
    + intros H. destruct (H item node) as [keep ->]; [left|].
      destruct (proj2 IH) as [rest ->]; [|eauto].
      intros i n Hin. apply H. by right.
Qed.

Section LevelOrderLemmas.

Variable levelNumber : string → Z.

Lemma insertLevel_Permutation a l :
  insertLevel levelNumber a l ≡ₚ a :: l.
Proof.
  induction l as [|b l IH]; simpl; [done|].
  destruct (comesAfter levelNumber a b); [|done].
  rewrite IH. apply perm_swap.
Qed.

Lemma sortLevels_Permutation l : sortLevels levelNumber l ≡ₚ l.
Proof.
  induction l as [|a l IH]; simpl; [done|].
  by rewrite insertLevel_Permutation, IH.
Qed.

Lemma insertLevel_sorted a l :
  StronglySorted (inLevelOrder levelNumber) l →
  StronglySorted (inLevelOrder levelNumber) (insertLevel levelNumber a l).
Proof.
  induction 1 as [|b l Hl IH Hb]; simpl.
  - by repeat constructor.
  - unfold comesAfter. destruct (Z.ltb_spec 0 (levelNumber a - levelNumber b)).
    + constructor; [done|].
      rewrite insertLevel_Permutation.
      constructor; [unfold inLevelOrder; lia|done].
    + constructor; [by constructor|].
      constructor; [unfold inLevelOrder; lia|].
      eapply Forall_impl; [exact Hb|]. unfold inLevelOrder. intros; lia.
Qed.

Lemma sortLevels_sorted l : StronglySorted (inLevelOrder levelNumber) (sortLevels levelNumber l).
Proof.
  induction l as [|a l IH]; simpl; [constructor|].
  by apply insertLevel_sorted.
Qed.

Lemma StronglySorted_lookup (l : list string) i j a b :
  StronglySorted (inLevelOrder levelNumber) l →
  i < j → l !! i = Some a → l !! j = Some b →
  (levelNumber a ≤ levelNumber b)%Z.
Proof.
  change (?x ≤ ?y)%Z with (inLevelOrder levelNumber a b).
  intros Hl. revert i j. induction Hl as [|x l Hl IH Hx]; intros i j Hij Hi Hj.
  - done.
  - destruct j as [|j]; [lia|]. simpl in Hj. destruct i as [|i].
    + simpl in Hi. injection Hi as <-.
      rewrite Forall_forall in Hx. apply Hx.
      by eapply list_elem_of_lookup_2.
    + simpl in Hi. apply (IH i j); [lia|done..].
Qed.

(** The sort is stable: the names with one number keep their order. *)
Lemma insertLevel_stable n a l :
  filter (fun x => levelNumber x = n) (insertLevel levelNumber a l)
  = filter (fun x => levelNumber x = n) (a :: l).
Proof.
  induction l as [|b l IH]; simpl; [done|].
  unfold comesAfter. destruct (Z.ltb_spec 0 (levelNumber a - levelNumber b));
    [|done].
  rewrite filter_cons, IH, !filter_cons.
  repeat case_decide; try done; lia.
Qed.

Lemma sortLevels_stable n l :
  filter (fun x => levelNumber x = n) (sortLevels levelNumber l)
  = filter (fun x => levelNumber x = n) l.
Proof.
  induction l as [|a l IH]; simpl; [done|].
  by rewrite insertLevel_stable, !filter_cons, IH.
Qed.

Lemma listLevels_ok_inv items body :
  listLevels levelNumber (LevelsDirItems items) = mkResponse 200 body →
  ∃ kept, filterLevelFolders items = Some kept
          ∧ body = mkLevelsBody None (sortLevels levelNumber kept).
Proof.
  simpl. destruct (filterLevelFolders items) as [kept|]; [|done].
  intros [= <-]. eauto.
Qed.

End LevelOrderLemmas.

(** X16. When [GET /api/levels] answers 200, it sends no error, and the
    names it lists are exactly the items of the directory that are folders,
    have a name starting with [level_] and contain at least one image file
    and at least one audio file. *)
Theorem listLevels_lists_valid_folders (levelNumber : string → Z)
    (items : list (string * Node)) (sent : LevelsBody) :
  listLevels levelNumber (LevelsDirItems items) = mkResponse 200 sent →
  lb_error sent = None
  ∧ ∀ name,
      name ∈ lb_levels sent
      ↔ String.prefix "level_" name = true
        ∧ ∃ files,
            (name, Folder (Some files)) ∈ items
            ∧ (∃ f, f ∈ files ∧ isImageFile f = true)
            ∧ (∃ f, f ∈ files ∧ isAudioFile f = true).
Proof.
  intros (kept & Hkept & ->)%listLevels_ok_inv. split; [done|].
  intros name. simpl. rewrite sortLevels_Permutation.
  rewrite (filterLevelFolders_elem_of _ _ _ Hkept).
  split.
  - intros (node & Hin & (Hp & files & -> & Hi & Ha)%validLevelFolder_true).
    apply existsb_elem_of in Hi, Ha. eauto 10.
  - intros (Hp & files & Hin & Hi & Ha).
    exists (Folder (Some files)). split; [done|].
    apply validLevelFolder_true. split; [done|]. exists files.
    split_and!; [done|by apply existsb_elem_of..].
Qed.

Lemma listLevels_lists_valid_folders_witness :
  ∃ sent,
    listLevels sampleNumber sampleDir = mkResponse 200 sent
    ∧ lb_levels sent = ["level_1"; "level_2"]
    ∧ ∀ name,
        name ∈ lb_levels sent
        ↔ String.prefix "level_" name = true
          ∧ ∃ files,
              match sampleDir with
              | LevelsDirItems items => (name, Folder (Some files)) ∈ items
              | _ => False
              end
              ∧ (∃ f, f ∈ files ∧ isImageFile f = true)
              ∧ (∃ f, f ∈ files ∧ isAudioFile f = true).
Proof.
  eexists. split; [vm_compute; reflexivity|]. split; [reflexivity|].
  apply (listLevels_lists_valid_folders sampleNumber). vm_compute. reflexivity.
Defined.

(** X17. When [GET /api/levels] answers 200, the list is in ascending
    order of the level numbers, and it is the stable arrangement of the
    valid folders: they are the names the filter kept, in the order of the
    directory, and the names with one number keep that order. *)
Theorem listLevels_sorted_stable (levelNumber : string → Z)
    (items : list (string * Node)) (sent : LevelsBody) :
  listLevels levelNumber (LevelsDirItems items) = mkResponse 200 sent →
  (∀ i j a b,
     i < j → lb_levels sent !! i = Some a → lb_levels sent !! j = Some b →
     (levelNumber a ≤ levelNumber b)%Z)
  ∧ ∃ kept,
      filterLevelFolders items = Some kept
      ∧ kept `sublist_of` items.*1
      ∧ lb_levels sent ≡ₚ kept
      ∧ ∀ n, filter (fun name => levelNumber name = n) (lb_levels sent)
             = filter (fun name => levelNumber name = n) kept.
Proof.
  intros (kept & Hkept & ->)%listLevels_ok_inv. simpl. split.
  - intros i j a b. apply StronglySorted_lookup, sortLevels_sorted.
  - exists kept. split_and!.
    + done.
    + by apply filterLevelFolders_sublist.
    + apply sortLevels_Permutation.
    + intros n. apply sortLevels_stable.
Qed.

Lemma listLevels_sorted_stable_witness :
  let items :=
    [ ("level_10", Folder (Some ["j.gif"; "j.m4a"]));
      ("level_b", Folder (Some ["b.webp"; "b.wav"]));
      ("level_2", Folder (Some ["c.png"; "c.ogg"]));
      ("level_a", Folder (Some ["a.JPG"; "a.MP3"])) ] in
  let levelNumber name :=
    if decide (name = "level_10") then 10%Z
    else if decide (name = "level_2") then 2%Z else 0%Z in
  ∃ sent,
    listLevels levelNumber (LevelsDirItems items) = mkResponse 200 sent
    ∧ lb_levels sent = ["level_b"; "level_a"; "level_2"; "level_10"]
    ∧ ∀ i j a b,
        i < j → lb_levels sent !! i = Some a → lb_levels sent !! j = Some b →
        (levelNumber a ≤ levelNumber b)%Z.
Proof.
  intros items levelNumber.
  eexists. split; [vm_compute; reflexivity|]. split; [reflexivity|].
  apply (listLevels_sorted_stable levelNumber items). vm_compute. reflexivity.
Defined.

(** X18. [GET /api/levels] answers 200, 404 or 500: 404 exactly when the
    directory [levels] does not exist; 200 exactly when it can be read and
    no item makes [statSync] or [readdirSync] throw, that is, no item is
    missing and no item named [level_...] is a folder that cannot be read;
    one such item makes the whole request fail. Every answer but 200 carries
    an error text and an empty list. *)
Theorem listLevels_failures (levelNumber : string → Z) (dir : LevelsDir) :
  let response := listLevels levelNumber dir in
  (status response = 200 ∨ status response = 404 ∨ status response = 500)
  ∧ (status response = 404 ↔ dir = NoLevelsDir)
  ∧ (status response = 200
     ↔ ∃ items,
         dir = LevelsDirItems items
         ∧ ∀ item node,
             (item, node) ∈ items →
             node ≠ Missing
             ∧ (String.prefix "level_" item = true → node ≠ Folder None))
  ∧ (status response ≠ 200 →
     lb_levels (body response) = [] ∧ is_Some (lb_error (body response))).
Proof.
  simpl. destruct dir as [| |items]; simpl.
  - split_and!; [eauto|done| |eauto]. split; [done|]. by intros (? & ? & _).
  - split_and!; [eauto|done| |eauto]. split; [done|]. by intros (? & ? & _).
  - destruct (filterLevelFolders items) as [kept|] eqn:Hkept; simpl.
    + split_and!; [eauto|done| |done].
      split; [|done]. intros _. exists items. split; [done|].
      intros item node Hin.
      assert (is_Some (validLevelFolder item node)) as [keep Hkeep].
      { by apply (proj1 (filterLevelFolders_is_Some items)). }
      split.
      * intros ->. done.
      * intros Hp ->. unfold validLevelFolder in Hkeep.
        by rewrite Hp in Hkeep.
    + split_and!; [eauto|done| |eauto].
      split; [done|]. intros (items' & [= <-] & Hitems). exfalso.
      assert (is_Some (filterLevelFolders items)) as [? ?]; [|congruence].
      apply filterLevelFolders_is_Some. intros item node Hin.
      destruct (Hitems item node Hin) as [Hm Hf].
      destruct (validLevelFolder item node) eqn:Hv; [eauto|].
      apply validLevelFolder_None in Hv as [->|[-> Hp]]; [done|].
      by destruct (Hf Hp).
Qed.

(** X19. What the player sees of the server's answer to [GET /api/levels]:
    with a 200 answer that lists at least one level, [init] stores the
    server's list and shows the welcome screen; otherwise it shows the
    error screen and leaves [state.levels] alone, with the text
    [No levels found...] for an empty list, and [Failed to load levels] for
    every failure of the server, whose own error text is not shown. *)
Theorem init_with_server_listing (levelNumber : string → Z)
    (dir : LevelsDir) (w : World) :
  let response := listLevels levelNumber dir in
  ∃ w',
    init_afterLevels (levelsReply response) w = Some (tt, w')
    ∧ if decide (status response = 200 ∧ lb_levels (body response) ≠ [])
      then
        levels (state w') = lb_levels (body response)
        ∧ screen (page w') = WelcomeScreen
      else
        levels (state w') = levels (state w)
        ∧ screen (page w') = ErrorScreen
        ∧ errorMessage (page w')
          = if decide (status response = 200)
            then "No levels found. Please add levels to the /levels folder."
            else "Failed to load levels".
Proof.
  simpl. destruct w as [g p pend ac ps].
  assert (∀ text,
            ∃ w', showError text (mkWorld g p pend ac ps) = Some (tt, w')
                  ∧ levels (state w') = levels g
                  ∧ screen (page w') = ErrorScreen
                  ∧ errorMessage (page w') = text) as Herror.
  { intros text. unfold_handlers. simpl. eauto. }
  destruct dir as [| |items]; simpl.
  - exact (Herror _).
  - exact (Herror _).
  - destruct (filterLevelFolders items) as [kept|]; simpl; [|exact (Herror _)].
    unfold levelsReply, responseOk, init_afterLevels, fetchLevels. simpl.
    destruct (sortLevels levelNumber kept) as [|name names]; simpl.
    + destruct (Herror
                  "No levels found. Please add levels to the /levels folder.")
        as (w' & Hw' & H).
      exists w'. split; [exact Hw'|]. exact H.
    + unfold_handlers. simpl. eexists. split; [reflexivity|]. done.
Qed.

Lemma getLevel_ok_iff levelName node :
  status (getLevel levelName node) = 200
  ↔ String.prefix "level_" levelName = true
    ∧ ∃ files,
        node = Folder (Some files)
        ∧ existsb isImageFile files = true
        ∧ existsb isAudioFile files = true.
Proof.
  unfold getLevel.
  destruct (String.prefix "level_" levelName); simpl.
  2: { split; [done|]. by intros [? _]. }
  destruct node as [| |[files|]]; simpl.
  1, 2, 4: (split; [done|]); by intros (_ & ? & ? & _).
  pose proof (find_is_Some isImageFile files) as Hi.
  pose proof (find_is_Some isAudioFile files) as Ha.
  destruct (find isImageFile files) as [imageFile|];
    destruct (find isAudioFile files) as [audioFile|]; simpl.
  - split; [|done]. intros _. split; [done|]. exists files.
    split_and!; [done|apply Hi; eauto|apply Ha; eauto].
  - split; [done|]. intros (_ & ? & [= <-] & _ & H).
    by destruct (proj2 Ha H).
  - split; [done|]. intros (_ & ? & [= <-] & H & _).
    by destruct (proj2 Hi H).
  - split; [done|]. intros (_ & ? & [= <-] & H & _).
    by destruct (proj2 Hi H).
Qed.

(** X20. [GET /api/levels/:levelName] answers 200 exactly when the name
    starts with [level_] and the folder can be read and has an image file
    and an audio file. It then sends the name it was asked for, the first
    image file and the first audio file of the folder, and these are two
    different files. *)
Theorem getLevel_serves_first_files (levelName : string) (node : Node) :
  let response := getLevel levelName node in
  (status response = 200
   ↔ String.prefix "level_" levelName = true
     ∧ ∃ files,
         node = Folder (Some files)
         ∧ (∃ f, f ∈ files ∧ isImageFile f = true)
         ∧ (∃ f, f ∈ files ∧ isAudioFile f = true))
  ∧ (status response = 200 →
     ∃ files imageFile audioFile i j,
       node = Folder (Some files)
       ∧ body response
         = LevelFiles (mkLevelData levelName imageFile audioFile)
       ∧ files !! i = Some imageFile
       ∧ isImageFile imageFile = true
       ∧ (∀ i' f, i' < i → files !! i' = Some f → isImageFile f = false)
       ∧ files !! j = Some audioFile
       ∧ isAudioFile audioFile = true
       ∧ (∀ j' f, j' < j → files !! j' = Some f → isAudioFile f = false)
       ∧ i ≠ j
       ∧ imageFile ≠ audioFile).
Proof.
  simpl. split.
  { rewrite getLevel_ok_iff.
    split; intros (Hp & files & -> & Hi & Ha); (split; [done|]);
      exists files; split_and!; try done; by apply existsb_elem_of. }
  intros (Hp & files & -> & Himage & Haudio)%getLevel_ok_iff.
  apply find_is_Some in Himage as [imageFile Hi].
  apply find_is_Some in Haudio as [audioFile Ha].
  unfold getLevel. rewrite Hp. simpl. rewrite Hi, Ha. simpl.
  apply find_first in Hi as (i & Hi & Himg & Hfirst).
  apply find_first in Ha as (j & Ha & Haud & Hfirst').
  pose proof (image_not_audio _ Himg) as Hnot.
  exists files, imageFile, audioFile, i, j.
  split_and!; try done; intros ->; congruence.
Qed.

Lemma getLevel_serves_first_files_witness :
  getLevel "level_1" (Folder (Some ["message.mp3"; "photo.jpg"; "extra.jpeg"]))
  = mkResponse 200
      (LevelFiles (mkLevelData "level_1" "photo.jpg" "message.mp3"))
  ∧ ∃ files imageFile audioFile i j,
      Folder (Some ["message.mp3"; "photo.jpg"; "extra.jpeg"])
      = Folder (Some files)
      ∧ LevelFiles (mkLevelData "level_1" "photo.jpg" "message.mp3")
        = LevelFiles (mkLevelData "level_1" imageFile audioFile)
      ∧ files !! i = Some imageFile
      ∧ isImageFile imageFile = true
      ∧ (∀ i' f, i' < i → files !! i' = Some f → isImageFile f = false)
      ∧ files !! j = Some audioFile
      ∧ isAudioFile audioFile = true
      ∧ (∀ j' f, j' < j → files !! j' = Some f → isAudioFile f = false)
      ∧ i ≠ j
      ∧ imageFile ≠ audioFile.
Proof.
  split; [vm_compute; reflexivity|].
  destruct (getLevel_serves_first_files "level_1"
              (Folder (Some ["message.mp3"; "photo.jpg"; "extra.jpeg"])))
    as [_ H].
  apply H. vm_compute. reflexivity.
Defined.

(** X21. The failures of [GET /api/levels/:levelName]: a name that does
    not start with [level_] gets 400 whether or not such a folder exists; a
    name that does gets 404 when nothing is there, 500 when what is there
    cannot be read as a folder, and 400 when the folder lacks an image file
    or lacks an audio file. Every answer but 200 carries an error text and
    no file names. *)
Theorem getLevel_failures (levelName : string) (node : Node) :
  let response := getLevel levelName node in
  (String.prefix "level_" levelName = false → status response = 400)
  ∧ (String.prefix "level_" levelName = true →
     match node with
     | Missing => status response = 404
     | PlainFile | Folder None => status response = 500
     | Folder (Some files) =>
         status response
         = if existsb isImageFile files && existsb isAudioFile files
           then 200 else 400
     end)
  ∧ (status response ≠ 200 → ∃ error, body response = LevelError error
                                      ∧ error ≠ "").
Proof.
  simpl. unfold getLevel.
  destruct (String.prefix "level_" levelName); simpl.
  2: { split_and!; [done|done|eauto]. }
  split; [done|].
  destruct node as [| |[files|]]; simpl; try (split; [done|]; eauto).
  pose proof (find_is_Some isImageFile files) as Hi.
  pose proof (find_is_Some isAudioFile files) as Ha.
  destruct (find isImageFile files) as [imageFile|];
    destruct (find isAudioFile files) as [audioFile|]; simpl.
  - rewrite (proj1 Hi), (proj1 Ha) by eauto. done.
  - destruct (existsb isAudioFile files).
    + by destruct (proj2 Ha eq_refl).
    + rewrite andb_false_r. split; [done|]. eauto.
  - destruct (existsb isImageFile files).
    + by destruct (proj2 Hi eq_refl).
    + split; [done|]. eauto.
  - destruct (existsb isImageFile files).
    + by destruct (proj2 Hi eq_refl).
    + split; [done|]. eauto.
Qed.

Lemma getLevel_failures_witness :
  status (getLevel "levels" (Folder (Some ["a.png"; "a.mp3"]))) = 400
  ∧ status (getLevel "level_3" (Folder (Some ["story.ogg"]))) = 400
  ∧ status (getLevel "level_4" Missing) = 404
  ∧ status (getLevel "level_5" PlainFile) = 500.
Proof.
  split_and!.
  - apply (getLevel_failures "levels" (Folder (Some ["a.png"; "a.mp3"]))).
    reflexivity.
  - destruct (getLevel_failures "level_3" (Folder (Some ["story.ogg"])))
      as (_ & H & _).
    exact (H eq_refl).
  - destruct (getLevel_failures "level_4" Missing) as (_ & H & _).
    exact (H eq_refl).
  - destruct (getLevel_failures "level_5" PlainFile) as (_ & H & _).
    exact (H eq_refl).
Defined.

(** X22. The two endpoints agree: when [GET /api/levels] answers 200, the
    names it lists are exactly the items of the directory for which
    [GET /api/levels/:levelName] answers 200, so every listed level can be
    loaded. *)
Theorem listed_levels_are_served (levelNumber : string → Z)
    (items : list (string * Node)) (sent : LevelsBody) :
  listLevels levelNumber (LevelsDirItems items) = mkResponse 200 sent →
  ∀ name,
    name ∈ lb_levels sent
    ↔ ∃ node, (name, node) ∈ items ∧ status (getLevel name node) = 200.
Proof.
  intros (kept & Hkept & ->)%listLevels_ok_inv name. simpl.
  rewrite sortLevels_Permutation.
  rewrite (filterLevelFolders_elem_of _ _ _ Hkept).
  assert (∀ node, validLevelFolder name node = Some true
                  ↔ status (getLevel name node) = 200) as Hagree.
  { intros node. rewrite validLevelFolder_true.
    by rewrite getLevel_ok_iff. }
  by setoid_rewrite Hagree.
Qed.

Lemma listed_levels_are_served_witness :
  ∃ sent,
    listLevels sampleNumber sampleDir = mkResponse 200 sent
    ∧ ∀ name,
        name ∈ lb_levels sent
        ↔ ∃ node,
            match sampleDir with
            | LevelsDirItems items => (name, node) ∈ items
            | _ => False
            end
            ∧ status (getLevel name node) = 200.
Proof.
  eexists. split; [vm_compute; reflexivity|].
  apply (listed_levels_are_served sampleNumber). vm_compute. reflexivity.
Defined.

(** * Which boards the shuffle can return *)

Lemma forLoop_ext {A} (indices : list nat) (f g : nat → A → option A) acc :
  (∀ i x, i ∈ indices → f i x = g i x) →
  forLoop indices f acc = forLoop indices g acc.
Proof.
  revert acc. induction indices as [|i rest IH]; intros acc Hfg; [done|].
  simpl. rewrite (Hfg i acc) by left.
  destruct (g i acc) as [acc'|]; simpl; [|done].
  apply IH. intros j x Hj. apply Hfg. by right.
Qed.

Lemma downward_counters m : rev (seq 1 (S m)) = S m :: rev (seq 1 m).
Proof. by rewrite seq_S, rev_unit. Qed.

(** The exchange of the loop at counter [S m], seen on a list split after
    its first [S (S m)] elements: the drawn element goes to position [S m],
    the rest of the front is rearranged, the back is untouched. *)
Lemma swapAt_last_of_front m j (front back : list Tile) x :
  length front = S (S m) →
  front !! j = Some x →
  ∃ front',
    swapAt (S m) j (front ++ back) = Some (front' ++ x :: back)
    ∧ length front' = S m
    ∧ front' ++ [x] ≡ₚ front.
Proof.
  intros Hlen Hj.
  assert (Hjlt : j < S (S m)) by (rewrite <- Hlen; by eapply lookup_lt_Some).
  destruct (lookup_lt_is_Some_2 front (S m)) as [y Hy]; [lia|].
  assert (Hswap : swapAt (S m) j (front ++ back)
                  = Some (<[j := y]> (<[S m := x]> (front ++ back)))).
  { unfold swapAt. rewrite !lookup_app_l by lia. by rewrite Hj, Hy. }
  set (R := <[j := y]> (<[S m := x]> (front ++ back))) in *.
  assert (HlenR : length R = length front + length back)
    by (unfold R; by rewrite !length_insert, length_app).
  assert (HR : R !! S m = Some x).
  { unfold R. destruct (decide (j = S m)) as [->|Hne].
    - rewrite list_lookup_insert_eq
        by (rewrite length_insert, length_app; lia).
      congruence.
    - rewrite list_lookup_insert_ne by done.
      apply list_lookup_insert_eq. rewrite length_app. lia. }
  assert (Hback : drop (S (S m)) R = back).
  { unfold R. rewrite !drop_insert_lt by lia.
    rewrite drop_app_length'; done. }
  exists (take (S m) R).
  assert (Hshape : take (S m) R ++ x :: back = R).
  { rewrite <- Hback. by apply take_drop_middle. }
  split; [by rewrite Hshape|].
  split; [rewrite length_take; lia|].
  apply (Permutation_app_inv_r back).
  rewrite <- app_assoc. simpl. rewrite Hshape.
  by apply swapAt_Permutation in Hswap.
Qed.

(** Every arrangement of the front is reached by some draws in range. *)
Lemma fisherYates_reaches m (front target back : list Tile) :
  length front = S m →
  target ≡ₚ front →
  ∃ pick,
    (∀ i, pick i ≤ i)
    ∧ forLoop (rev (seq 1 m))
              (fun i shuffled => let j := pick i in swapAt i j shuffled)
              (front ++ back)
      = Some (target ++ back).
Proof.
  revert front target back.
  induction m as [|m IH]; intros front target back Hlen Hperm.
  - exists (fun i => i). split; [done|]. simpl.
    destruct front as [|y [|? ?]]; simplify_eq/=.
    by apply Permutation_singleton_r in Hperm as ->.
  - assert (Hlen' : length target = S (S m))
      by (by rewrite (Permutation_length Hperm)).
    destruct target as [|t0 target0] using rev_ind; [done|].
    clear IHtarget0. rename t0 into x, target0 into target.
    assert (Hx : x ∈ front).
    { rewrite <- Hperm. apply elem_of_app. right. by left. }
    apply list_elem_of_lookup in Hx as [j Hj].
    destruct (swapAt_last_of_front m j front back x Hlen Hj)
      as (front' & Hswap & Hlen1 & Hperm1).
    destruct (IH front' target (x :: back) Hlen1) as (pick0 & Hrange & Hloop).
    { apply (Permutation_app_inv_r [x]). by rewrite Hperm, Hperm1. }
    exists (fun i => if decide (i = S m) then j else pick0 i). split.
    + intros i. case_decide as Hi; [|done]. subst i.
      apply lookup_lt_Some in Hj. lia.
    + rewrite downward_counters. cbn [forLoop].
      rewrite decide_True by done. rewrite Hswap. cbn [mbind option_bind].
      rewrite <- app_assoc. simpl. rewrite <- Hloop.
      apply forLoop_ext. intros i a Hi.
      apply list_elem_of_In in Hi. apply in_rev in Hi. apply in_seq in Hi.
      rewrite decide_False by lia. done.
Qed.

(** The loop up to counter [m] leaves everything after position [m]
    alone. *)
Lemma fisherYates_keeps_back m (front back result : list Tile)
    (pick : nat → nat) :
  length front = S m →
  (∀ i, i ≤ m → pick i ≤ i) →
  forLoop (rev (seq 1 m))
          (fun i shuffled => let j := pick i in swapAt i j shuffled)
          (front ++ back) = Some result →
  ∃ front', result = front' ++ back ∧ length front' = S m.
Proof.
  revert front back result.
  induction m as [|m IH]; intros front back result Hlen Hr H.
  - simpl in H. injection H as <-. eauto.
  - rewrite downward_counters in H. cbn [forLoop] in H.
    destruct (lookup_lt_is_Some_2 front (pick (S m))) as [x Hx];
      [specialize (Hr (S m)); lia|].
    destruct (swapAt_last_of_front m _ front back x Hlen Hx)
      as (front1 & Hswap & Hlen1 & _).
    cbn zeta in H. rewrite Hswap in H. cbn [mbind option_bind] in H.
    destruct (IH front1 (x :: back) result Hlen1
                (fun i Hi => Hr i ltac:(lia)) H) as (r1 & -> & Hlr1).
    exists (r1 ++ [x]). rewrite <- app_assoc. split; [done|].
    rewrite length_app. simpl. lia.
Qed.

(** With tiles that differ from one another, the draws are determined by
    the arrangement they lead to. *)
Lemma fisherYates_draws_unique m (front back result : list Tile)
    (pick pick' : nat → nat) :
  length front = S m →
  NoDup front →
  (∀ i, i ≤ m → pick i ≤ i) →
  (∀ i, i ≤ m → pick' i ≤ i) →
  forLoop (rev (seq 1 m))
          (fun i shuffled => let j := pick i in swapAt i j shuffled)
          (front ++ back) = Some result →
  forLoop (rev (seq 1 m))
          (fun i shuffled => let j := pick' i in swapAt i j shuffled)
          (front ++ back) = Some result →
  ∀ i, 1 ≤ i ≤ m → pick i = pick' i.
Proof.
  revert front back result.
  induction m as [|m IH]; intros front back result Hlen Hnd Hr Hr' H H'.
  - intros; lia.
  - rewrite downward_counters in H, H'. cbn [forLoop] in H, H'.
    destruct (lookup_lt_is_Some_2 front (pick (S m))) as [x Hx];
      [specialize (Hr (S m)); lia|].
    destruct (lookup_lt_is_Some_2 front (pick' (S m))) as [x' Hx'];
      [specialize (Hr' (S m)); lia|].
    destruct (swapAt_last_of_front m _ front back x Hlen Hx)
      as (front1 & Hswap & Hlen1 & Hperm1).
    destruct (swapAt_last_of_front m _ front back x' Hlen Hx')
      as (front1' & Hswap' & Hlen1' & Hperm1').
    cbn zeta in H, H'.
    rewrite Hswap in H. rewrite Hswap' in H'. cbn [mbind option_bind] in H, H'.
    assert (Hnd1 : NoDup front1).
    { rewrite <- Hperm1 in Hnd. by apply NoDup_app in Hnd as [? _]. }
    destruct (fisherYates_keeps_back m front1 (x :: back) result pick Hlen1
                (fun i Hi => Hr i ltac:(lia)) H) as (r1 & Hres & Hlr1).
    destruct (fisherYates_keeps_back m front1' (x' :: back) result pick' Hlen1'
                (fun i Hi => Hr' i ltac:(lia)) H') as (r1' & Hres' & Hlr1').
    assert (Heq : r1 = r1' ∧ x :: back = x' :: back).
    { apply app_inj_1; [lia|congruence]. }
    destruct Heq as [_ [= <-]].
    assert (Hpick : pick (S m) = pick' (S m))
      by exact (NoDup_lookup front _ _ x Hnd Hx Hx').
    rewrite <- Hpick in Hswap'. rewrite Hswap in Hswap'.
    injection Hswap' as Hfront%app_inv_tail.
    subst front1'.
    intros i Hi. destruct (decide (i = S m)) as [->|Hne]; [done|].
    eapply (IH front1 (x :: back) result Hlen1 Hnd1); [| |done|done|lia].
    + intros k Hk. apply Hr. lia.
    + intros k Hk. apply Hr'. lia.
Qed.

Lemma picks_everywhere_in_range pick n :
  (∀ i, pick i ≤ i) → picksInRange pick n = true.
Proof.
  intros H. unfold picksInRange. apply forallb_forall. intros i _.
  by apply Nat.leb_le.
Qed.

Lemma fisherYates_reaches_board (tiles target : list Tile) :
  target ≡ₚ tiles →
  ∃ pick, (∀ i, pick i ≤ i)
          ∧ fisherYates pick (length tiles) tiles = Some target.
Proof.
  intros Hperm. unfold fisherYates.
  destruct tiles as [|t tiles].
  - apply Permutation_nil_r in Hperm as ->. by exists (fun i => i).
  - destruct (fisherYates_reaches (length tiles) (t :: tiles) target [])
      as (pick & Hrange & Hloop); [done..|].
    exists pick. split; [done|].
    rewrite !app_nil_r in Hloop. simpl. by rewrite Nat.sub_0_r.
Qed.

(** X23. The first loop of [shuffleTiles] is an unbiased shuffle: for
    tiles with different origin ordinals, every arrangement of the tiles is
    reached by draws in range, and by one sequence of draws only (the draws
    at the counter values 1 to n - 1 are determined by the arrangement). So
    the n! sequences of draws correspond one to one to the n!
    arrangements. *)
Theorem fisherYates_unbiased (tiles target : list Tile) :
  NoDup (ordinals tiles) →
  target ≡ₚ tiles →
  ∃ pick,
    picksInRange pick (length tiles) = true
    ∧ fisherYates pick (length tiles) tiles = Some target
    ∧ ∀ pick',
        picksInRange pick' (length tiles) = true →
        fisherYates pick' (length tiles) tiles = Some target →
        ∀ i, 1 ≤ i < length tiles → pick' i = pick i.
Proof.
  intros Hnd Hperm.
  destruct (fisherYates_reaches_board tiles target Hperm)
    as (pick & Hrange & Hfy).
  exists pick. split; [by apply picks_everywhere_in_range|]. split; [done|].
  intros pick' Hrange' Hfy' i Hi.
  destruct tiles as [|t tiles]; [simpl in Hi; lia|].
  unfold fisherYates in Hfy, Hfy'. simpl in Hfy, Hfy', Hi.
  rewrite Nat.sub_0_r in Hfy, Hfy'.
  apply (fisherYates_draws_unique (length tiles) (t :: tiles) [] target
           pick' pick); rewrite ?app_nil_r; try done.
  - unfold ordinals in Hnd. change (map ?f ?l) with (f <$> l) in Hnd.
    by apply NoDup_fmap_1 in Hnd.
  - intros k Hk. apply (picksInRange_spec pick' (S (length tiles))); [done|].
    lia.
  - lia.
Qed.

Lemma fisherYates_unbiased_witness :
  ∃ pick,
    picksInRange pick (length board2x2) = true
    ∧ fisherYates pick (length board2x2) board2x2 = Some (reverse board2x2)
    ∧ ∀ pick',
        picksInRange pick' (length board2x2) = true →
        fisherYates pick' (length board2x2) board2x2
        = Some (reverse board2x2) →
        ∀ i, 1 ≤ i < length board2x2 → pick' i = pick i.
Proof.
  apply (fisherYates_unbiased board2x2 (reverse board2x2)).
  - unfold board2x2. rewrite createTiles_ordinals. apply NoDup_seq.
  - apply reverse_Permutation.
Defined.

(** X24. The boards [shuffleTiles] can return for tiles in solved order,
    over all draws in range, are exactly the arrangements of the tiles with
    an even number of inversions: no arrangement with an odd number is ever
    returned, and every one with an even number is returned for some
    draws. *)
Theorem shuffleTiles_returns_even_orders (board target : list Tile) :
  ordinals board = seq 0 (length board) →
  (∃ pick, picksInRange pick (length board) = true
           ∧ shuffleTiles pick board = Some target)
  ↔ target ≡ₚ board ∧ Nat.odd (inversionsOf (ordinals target)) = false.
Proof.
  intros Hsolved. split.
  - intros (pick & _ & Hs). split.
    + by eapply shuffleTiles_Permutation.
    + eapply shuffleTiles_even; [|done]. by apply NoDup_solved_order.
  - intros [Hperm Heven].
    destruct (fisherYates_reaches_board board target Hperm)
      as (pick & Hrange & Hfy).
    exists pick. split; [by apply picks_everywhere_in_range|].
    destruct (shuffleTiles_after_random_step _ _ _ Hfy) as [_ ->].
    by rewrite Heven.
Qed.

Lemma shuffleTiles_returns_even_orders_witness :
  ∃ pick, picksInRange pick (length board2x2) = true
          ∧ shuffleTiles pick board2x2 = Some (reverse board2x2).
Proof.
  apply (shuffleTiles_returns_even_orders board2x2 (reverse board2x2)).
  - unfold board2x2. by rewrite createTiles_ordinals, createTiles_length.
  - split; [apply reverse_Permutation|]. vm_compute. reflexivity.
Defined.
